(** * LSB steganography core of [backend/main.py]

    A shallow embedding of [hide_message] and [extract_message] together
    with the Python and PIL primitives they call, followed by the
    properties of the embedding.

    Conventions of the embedding:
    - a Python [int] is a [Z]; a code point ([ord]/[chr]) is an [N];
    - a Python [str] used as a bit string is a [list ascii]; a message is the
      list of its code points;
    - a raised exception is a [Raise e] result, threaded by a small error
      monad; each raise site has its own constructor. *)

From Stdlib Require Import String Ascii List ZArith NArith Lia Bool Arith.
From Stdlib Require Import DecimalString.
Import ListNotations.

Local Open Scope Z_scope.

(** ** Exceptions and the error monad *)

Inductive exn : Type :=
| UnpackError (given : nat)   (* ValueError: too many / not enough values to unpack (expected 3) *)
| InvalidLiteral              (* ValueError: invalid literal for int() *)
| IndexError                  (* IndexError: string index out of range *)
| ChrRange.                   (* ValueError: chr() arg not in range(0x110000) *)

Inductive result (A : Type) : Type :=
| Ok (a : A)
| Raise (e : exn).
Arguments Ok {A} a.
Arguments Raise {A} e.

Definition bind {A B : Type} (r : result A) (k : A -> result B) : result B :=
  match r with
  | Ok a => k a
  | Raise e => Raise e
  end.

Declare Scope py_scope.
Delimit Scope py_scope with py.
Notation "x <- c ;; k" := (bind c (fun x => k))
  (at level 61, c at next level, right associativity) : py_scope.
Notation "' pat <- c ;; k" := (bind c (fun x => match x with pat => k end))
  (at level 61, pat pattern, c at next level, right associativity) : py_scope.
Local Open Scope py_scope.

Fixpoint mapM {A B : Type} (f : A -> result B) (l : list A) : result (list B) :=
  match l with
  | [] => Ok []
  | a :: l' => b <- f a ;; bs <- mapM f l' ;; Ok (b :: bs)
  end.

(** ** Data *)

(** A bit string as the code holds it: a Python [str] of the characters
    '0' and '1'. *)
Definition str : Type := list ascii.

(** A message: a Python [str] as the sequence of its code points. *)
Definition pystr : Type := list N.

(** What [img.getdata()] yields per pixel: an [int] for single-band modes,
    a tuple with one entry per band otherwise. *)
Inductive pixel : Type :=
| PInt (v : Z)
| PTuple (cs : list Z).

(** The part of a PIL image the two functions touch. *)
Record image : Type := mkImage {
  mode : string;
  size : nat * nat;
  getdata : list pixel
}.

(** ** Python primitives *)

Definition ord (c : N) : Z := Z.of_N c.

(** [chr(n)] *)
Definition chr (n : Z) : result N :=
  if (0 <=? n) && (n <=? 1114111) then Ok (Z.to_N n) else Raise ChrRange.

(** The binary digits of a positive number, most significant first. *)
Fixpoint bin_pos (p : positive) (acc : str) : str :=
  match p with
  | xH => "1"%char :: acc
  | xO q => bin_pos q ("0"%char :: acc)
  | xI q => bin_pos q ("1"%char :: acc)
  end.

(** Left padding with '0' up to a minimum width. *)
Definition zfill (width : nat) (s : str) : str :=
  repeat "0"%char (width - length s) ++ s.

(** [format(n, '08b')]: binary digits, zero-padded to a MINIMUM width of 8
    (the sign counts in the width); longer representations are kept whole. *)
Definition format_08b (n : Z) : str :=
  match n with
  | Z0 => zfill 8 ["0"%char]
  | Zpos p => zfill 8 (bin_pos p [])
  | Zneg p => "-"%char :: zfill 7 (bin_pos p [])
  end.

(** [str(n)] for an [int]: its decimal representation. *)
Definition str_of_int (n : Z) : str :=
  list_ascii_of_string (NilZero.string_of_int (Z.to_int n)).

(** [int(c)] for a one-character string [c]. *)
Definition int_of_char (c : ascii) : result Z :=
  let n := N_of_ascii c in
  if ((48 <=? n) && (n <=? 57))%N then Ok (Z.of_N n - 48) else Raise InvalidLiteral.

(** [int(s, 2)] on strings of binary digits; any other character, and the
    empty string, is an invalid literal. *)
Fixpoint int2_digits (acc : Z) (s : str) : result Z :=
  match s with
  | [] => Ok acc
  | c :: s' =>
      if Ascii.eqb c "0"%char then int2_digits (2 * acc) s'
      else if Ascii.eqb c "1"%char then int2_digits (2 * acc + 1) s'
      else Raise InvalidLiteral
  end.

Definition int_base2 (s : str) : result Z :=
  match s with
  | [] => Raise InvalidLiteral
  | _ => int2_digits 0 s
  end.

(** [s[i]] *)
Definition getitem (s : str) (i : nat) : result ascii :=
  match nth_error s i with
  | Some c => Ok c
  | None => Raise IndexError
  end.

(** [s[i:j]] for [0 <= i <= j]. *)
Definition slice (s : str) (i j : nat) : str := firstn (j - i) (skipn i s).

Fixpoint startswith (s sub : str) : bool :=
  match sub, s with
  | [], _ => true
  | _ :: _, [] => false
  | c :: sub', d :: s' => Ascii.eqb c d && startswith s' sub'
  end.

Fixpoint find_from (s sub : str) (i : nat) : option nat :=
  if startswith s sub then Some i
  else match s with
       | [] => None
       | _ :: s' => find_from s' sub (S i)
       end.

(** [s.find(sub)]: the lowest index where [sub] occurs, or [-1]. *)
Definition find (s sub : str) : Z :=
  match find_from s sub 0 with
  | Some i => Z.of_nat i
  | None => -1
  end.

(** [range(0, stop, step)] *)
Definition range0 (stop step : nat) : list nat :=
  map (fun k => (k * step)%nat) (seq 0 ((stop + step - 1) / step)).

(** ** [hide_message] *)

Definition delimiter : str := list_ascii_of_string "1111111111111110".

(** Line 21. *)
Definition binary_message_of (message : pystr) : str :=
  concat (map (fun c => format_08b (ord c)) message) ++ delimiter.

(** One guarded channel update:
    [if msg_index < len(binary_message): x = (x & ~1) | int(binary_message[msg_index]); msg_index += 1]
    (the single-channel branch spells the fall-through as [else: new_pixel = pixel]). *)
Definition embed (binary_message : str) (msg_index : nat) (x : Z) : result (Z * nat) :=
  if (msg_index <? length binary_message)%nat then
    c <- getitem binary_message msg_index ;;
    b <- int_of_char c ;;
    Ok (Z.lor (Z.land x (Z.lnot 1)) b, S msg_index)
  else Ok (x, msg_index).

(** The body of the [for pixel in pixels] loop, lines 26-43. *)
Definition hide_pixel (binary_message : str) (msg_index : nat) (p : pixel)
  : result (pixel * nat) :=
  match p with
  | PInt v =>
      '(new_pixel, i) <- embed binary_message msg_index v ;;
      Ok (PInt new_pixel, i)
  | PTuple [r; g; b] =>
      '(r', i1) <- embed binary_message msg_index r ;;
      '(g', i2) <- embed binary_message i1 g ;;
      '(b', i3) <- embed binary_message i2 b ;;
      Ok (PTuple [r'; g'; b'], i3)
  | PTuple cs => Raise (UnpackError (length cs))
  end.

(** Lines 23-44: the loop, with [new_pixels] and [msg_index] as its state. *)
Fixpoint hide_loop (binary_message : str) (pixels new_pixels : list pixel)
  (msg_index : nat) : result (list pixel) :=
  match pixels with
  | [] => Ok new_pixels
  | p :: rest =>
      '(new_pixel, i) <- hide_pixel binary_message msg_index p ;;
      hide_loop binary_message rest (new_pixels ++ [new_pixel]) i
  end.

(** Lines 20-47.  [Image.new(img.mode, img.size)] followed by [putdata] of one
    entry per pixel of [img] overwrites the whole buffer, so the new image
    holds exactly [new_pixels]. *)
Definition hide_message (img : image) (message : pystr) : result image :=
  let binary_message := binary_message_of message in
  new_pixels <- hide_loop binary_message (getdata img) [] 0 ;;
  Ok (mkImage (mode img) (size img) new_pixels).

(** ** [extract_message] *)

(** Lines 52-57. *)
Fixpoint extract_loop (pixels : list pixel) (binary_message : str) : result str :=
  match pixels with
  | [] => Ok binary_message
  | PInt v :: rest =>
      extract_loop rest (binary_message ++ str_of_int (Z.land v 1))
  | PTuple [r; g; b] :: rest =>
      extract_loop rest
        (binary_message ++
           (str_of_int (Z.land r 1) ++ str_of_int (Z.land g 1)) ++ str_of_int (Z.land b 1))
  | PTuple cs :: _ => Raise (UnpackError (length cs))
  end.

(** Lines 64-66. *)
Fixpoint decode_loop (binary_message : str) (indices : list nat) (message : pystr)
  : result pystr :=
  match indices with
  | [] => Ok message
  | i :: rest =>
      let byte := slice binary_message i (i + 8) in
      n <- int_base2 byte ;;
      c <- chr n ;;
      decode_loop binary_message rest (message ++ [c])
  end.

(** The string literal returned on line 61. *)
Definition No_message_found : pystr :=
  map N_of_ascii (list_ascii_of_string "No message found").

(** Lines 49-67. *)
Definition extract_message (img : image) : result pystr :=
  binary_message <- extract_loop (getdata img) [] ;;
  let end_ := find binary_message delimiter in
  if end_ =? -1 then Ok No_message_found
  else
    let binary_message := firstn (Z.to_nat end_) binary_message in
    decode_loop binary_message (range0 (length binary_message) 8) [].

(** ** Vocabulary of the specification *)

(** Channels of a pixel in declared order. *)
Definition channels_of (p : pixel) : list Z :=
  match p with
  | PInt v => [v]
  | PTuple cs => cs
  end.

(** All channels of a grid in scan order. *)
Definition channels (img : image) : list Z := flat_map channels_of (getdata img).

(** One LSB slot per channel. *)
Definition bit_count (img : image) : nat := length (channels img).

(** The character '0' or '1' for the least-significant bit of a channel. *)
Definition lsb_char (v : Z) : ascii := if Z.odd v then "1"%char else "0"%char.

(** The LSB bitstream of a grid: the LSB of every channel, in scan order. *)
Definition lsb_stream (img : image) : str := map lsb_char (channels img).

(** Pixel shape: [None] for a single value, [Some k] for a [k]-tuple. *)
Definition shape (p : pixel) : option nat :=
  match p with
  | PInt _ => None
  | PTuple cs => Some (length cs)
  end.

(** The pixels both loops can destructure: an [int] or a 3-tuple. *)
Definition rgb_or_int (p : pixel) : Prop :=
  match p with
  | PInt _ => True
  | PTuple cs => length cs = 3%nat
  end.

Definition supported (img : image) : Prop := Forall rgb_or_int (getdata img).

(** [sub] occurs in [s] at offset [q]. *)
Definition occurs_at (s sub : str) (q : nat) : Prop :=
  firstn (length sub) (skipn q s) = sub.

(** [p] is the offset of the first occurrence of [sub] in [s]. *)
Definition first_occurrence (s sub : str) (p : nat) : Prop :=
  occurs_at s sub p /\ forall q, (q < p)%nat -> ~ occurs_at s sub q.

(** The character for one group of bits read as an unsigned binary number. *)
Definition char_of_bits (byte : str) : result N := n <- int_base2 byte ;; chr n.

(** The bits cut into consecutive groups of 8, the last one shorter when the
    length is not a multiple of 8. *)
Definition groups_of_8 (bits : str) : list str :=
  map (fun i => slice bits i (i + 8)) (range0 (length bits) 8).

(** Only the complete groups of 8 bits. *)
Definition complete_groups (bits : str) : list str :=
  map (fun k => slice bits (8 * k) (8 * k + 8)) (seq 0 (length bits / 8)).

(** The value of a bit character. *)
Definition bit_val (c : ascii) : Z := if Ascii.eqb c "1"%char then 1 else 0.

Definition is_bit (c : ascii) : Prop := c = "0"%char \/ c = "1"%char.

(** A channel with its LSB forced to the bit [c], as line 28 computes it. *)
Definition put_lsb (x : Z) (c : ascii) : Z := Z.lor (Z.land x (Z.lnot 1)) (bit_val c).

(** The encoder on a flat run of channels, starting at payload index [i]:
    the new channel values and the payload index reached. *)
Fixpoint embed_chs (bm : str) (i : nat) (xs : list Z) : list Z * nat :=
  match xs with
  | [] => ([], i)
  | x :: xs' =>
      match nth_error bm i with
      | Some c => let '(r, j) := embed_chs bm (S i) xs' in (put_lsb x c :: r, j)
      | None => let '(r, j) := embed_chs bm i xs' in (x :: r, j)
      end
  end.

(** The encoder's effect stated on streams: payload bits and channels are
    consumed pairwise until either runs out. *)
Fixpoint embed_spec (bits : str) (xs : list Z) : list Z :=
  match xs, bits with
  | x :: xs', c :: bits' => put_lsb x c :: embed_spec bits' xs'
  | _, _ => xs
  end.

(** A grayscale image of the given pixel values. *)
Definition gray (vs : list Z) : image :=
  mkImage "L" (length vs, 1%nat) (map PInt vs).

(** ** Concrete grids used below *)

Definition grid_example_1 : image := gray [10; 20; 30; 40].
Definition grid_example_2 : image := gray (repeat 100 12).
Definition grid_32 : image := gray (repeat 100 32).
Definition grid_rgba : image :=
  mkImage "RGBA" (2%nat, 2%nat) (repeat (PTuple [0; 0; 0; 0]) 4).
Definition grid_stray_bit : image := gray (0 :: repeat 1 15 ++ [0]).

(** The grid invariant of the data model: one entry per pixel of the
    geometry, all pixels of one shape with at least one channel, every
    channel an unsigned 8-bit value. *)
Definition well_formed (img : image) : Prop :=
  length (getdata img) = (fst (size img) * snd (size img))%nat /\
  (forall p q, In p (getdata img) -> In q (getdata img) -> shape p = shape q) /\
  (forall cs, In (PTuple cs) (getdata img) -> (1 <= length cs)%nat) /\
  Forall (fun v => 0 <= v <= 255) (channels img).

(** ** The payload and the decoding in the specification's terms

    These definitions do not use the primitives of the embedding above. *)

Definition bit_char (b : bool) : ascii := if b then "1"%char else "0"%char.

(** The [w] low bits of [n], most significant first. *)
Fixpoint bits_msb (w : nat) (n : N) : str :=
  match w with
  | O => []
  | S w' => bit_char (N.testbit n (N.of_nat w')) :: bits_msb w' n
  end.

(** The bits of one character: its 8 bits, most significant first; a code
    point above 255 has no 8-bit form and is written with all its binary
    digits. *)
Definition char_bits (c : N) : str := bits_msb (Nat.max 8 (N.size_nat c)) c.

(** The 16-bit terminator marker: fifteen 1 bits and a 0 bit. *)
Definition terminator_marker : str := repeat "1"%char 15 ++ ["0"%char].

(** The bitstream payload: the bits of each character in order, followed by
    the terminator marker. *)
Definition bitstream_payload (m : pystr) : str :=
  flat_map char_bits m ++ terminator_marker.

(** The unsigned number written by a string of bits, most significant first:
    a 1 at distance [k] from the end counts [2^k]. *)
Fixpoint bits_value (s : str) : N :=
  match s with
  | [] => 0%N
  | c :: s' =>
      ((if Ascii.eqb c "1"%char then 2 ^ N.of_nat (length s') else 0) + bits_value s')%N
  end.

(** Consecutive groups of 8 bits, the last one shorter when bits are left
    over. *)
Fixpoint groups_fuel (fuel : nat) (s : str) : list str :=
  match fuel, s with
  | _, [] => []
  | O, _ :: _ => []
  | S f, _ :: _ => firstn 8 s :: groups_fuel f (skipn 8 s)
  end.

Definition bit_groups (s : str) : list str := groups_fuel (length s) s.

(** The message read from a string of bits. *)
Definition message_of_bits (s : str) : pystr := map bits_value (bit_groups s).

(** A well-formed RGBA grid whose 16 channel LSBs are the terminator, and a
    grayscale grid carrying the letter A. *)
Definition grid_rgba_terminator : image :=
  mkImage "RGBA" (2%nat, 2%nat)
    [PTuple [1; 1; 1; 1]; PTuple [1; 1; 1; 1]; PTuple [1; 1; 1; 1]; PTuple [1; 1; 1; 0]].
Definition grid_letter_A : image :=
  gray ([0; 1; 0; 0; 0; 0; 0; 1] ++ repeat 1 15 ++ [0; 1; 0]).

(** * Properties *)

(** ** The error monad *)

Lemma bind_Ok_inv {A B : Type} (r : result A) (k : A -> result B) (b : B) :
  bind r k = Ok b -> exists a, r = Ok a /\ k a = Ok b.
Proof.
  destruct r as [a|e]; simpl; intros H; [eauto | discriminate].
Qed.

Lemma mapM_app {A B : Type} (f : A -> result B) (l1 l2 : list A) :
  mapM f (l1 ++ l2) =
  (bs1 <- mapM f l1 ;; bs2 <- mapM f l2 ;; Ok (bs1 ++ bs2)).
Proof.
  induction l1 as [|a l1 IH]; simpl.
  - destruct (mapM f l2); reflexivity.
  - destruct (f a) as [b|e]; simpl; [|reflexivity].
    rewrite IH. destruct (mapM f l1) as [bs1|e]; simpl; [|reflexivity].
    destruct (mapM f l2); reflexivity.
Qed.

Lemma mapM_map_Ok {A B : Type} (f : A -> result B) (g : B -> A) (l : list B) :
  Forall (fun b => f (g b) = Ok b) l -> mapM f (map g l) = Ok l.
Proof.
  induction 1 as [|b l Hb _ IH]; simpl; [reflexivity|].
  rewrite Hb. simpl. rewrite IH. reflexivity.
Qed.

Lemma mapM_length {A B : Type} (f : A -> result B) (l : list A) (bs : list B) :
  mapM f l = Ok bs -> length bs = length l.
Proof.
  revert bs. induction l as [|a l IH]; simpl; intros bs H.
  - injection H as <-. reflexivity.
  - apply bind_Ok_inv in H as (b & _ & H).
    apply bind_Ok_inv in H as (bs' & Hbs & H).
    injection H as <-. simpl. f_equal. auto.
Qed.

(** ** Bits of a channel *)

Lemma is_bit_cases (c : ascii) :
  is_bit c -> int_of_char c = Ok (bit_val c) /\ (bit_val c = 0 \/ bit_val c = 1).
Proof.
  intros [-> | ->]; split; try reflexivity; [left | right]; reflexivity.
Qed.

Lemma land_1_odd (v : Z) : Z.land v 1 = if Z.odd v then 1 else 0.
Proof.
  change 1 with (Z.ones 1) at 1. rewrite Z.land_ones by lia.
  change (2 ^ 1) with 2. apply Zmod_odd.
Qed.

Lemma str_of_int_lsb (v : Z) : str_of_int (Z.land v 1) = [lsb_char v].
Proof.
  rewrite land_1_odd. unfold lsb_char. destruct (Z.odd v); reflexivity.
Qed.

Lemma put_lsb_odd (x : Z) (c : ascii) :
  is_bit c -> Z.odd (put_lsb x c) = Ascii.eqb c "1"%char.
Proof.
  intros Hc. unfold put_lsb. rewrite <- Z.bit0_odd, Z.lor_spec, Z.land_spec.
  replace (Z.testbit (Z.lnot 1) 0) with false by reflexivity.
  rewrite andb_false_r. simpl.
  destruct Hc as [-> | ->]; reflexivity.
Qed.

Lemma lsb_char_put_lsb (x : Z) (c : ascii) : is_bit c -> lsb_char (put_lsb x c) = c.
Proof.
  intros Hc. unfold lsb_char. rewrite put_lsb_odd by assumption.
  destruct Hc as [-> | ->]; reflexivity.
Qed.

Lemma put_lsb_upper (x : Z) (c : ascii) :
  is_bit c -> Z.shiftr (put_lsb x c) 1 = Z.shiftr x 1.
Proof.
  intros Hc. apply Z.bits_inj'. intros n Hn.
  rewrite !Z.shiftr_spec by assumption. unfold put_lsb.
  rewrite Z.lor_spec, Z.land_spec, Z.lnot_spec by lia.
  assert (H1 : Z.testbit 1 (n + 1) = false).
  { change 1 with (2 ^ 0) at 1. apply Z.pow2_bits_false. lia. }
  assert (Hb : Z.testbit (bit_val c) (n + 1) = false).
  { destruct Hc as [-> | ->]; simpl; [apply Z.bits_0 | exact H1]. }
  rewrite H1, Hb. simpl. rewrite andb_true_r, orb_false_r. reflexivity.
Qed.

Lemma put_lsb_range (x : Z) (c : ascii) :
  is_bit c -> 0 <= x <= 255 -> 0 <= put_lsb x c <= 255.
Proof.
  intros Hc Hx.
  assert (Hu := put_lsb_upper x c Hc).
  assert (Ho := put_lsb_odd x c Hc).
  rewrite !Z.shiftr_div_pow2 in Hu by lia. change (2 ^ 1) with 2 in Hu.
  pose proof (Z.div_mod (put_lsb x c) 2 ltac:(lia)) as E1.
  pose proof (Z.mod_pos_bound (put_lsb x c) 2 ltac:(lia)) as B1.
  pose proof (Z.div_mod x 2 ltac:(lia)) as E2.
  pose proof (Z.mod_pos_bound x 2 ltac:(lia)) as B2.
  lia.
Qed.

(** ** The payload is a bit string *)

Lemma bin_pos_bits (p : positive) (acc : str) :
  Forall is_bit acc -> Forall is_bit (bin_pos p acc).
Proof.
  revert acc. induction p as [q IH | q IH |]; simpl; intros acc Hacc.
  - apply IH. constructor; [right; reflexivity | assumption].
  - apply IH. constructor; [left; reflexivity | assumption].
  - constructor; [right; reflexivity | assumption].
Qed.

Lemma zfill_bits (w : nat) (s : str) : Forall is_bit s -> Forall is_bit (zfill w s).
Proof.
  intros Hs. unfold zfill. apply Forall_app. split; [|assumption].
  apply Forall_forall. intros c Hc. apply repeat_spec in Hc. left. exact Hc.
Qed.

Lemma format_08b_bits (c : N) : Forall is_bit (format_08b (ord c)).
Proof.
  unfold ord. destruct c as [|p]; simpl.
  - apply zfill_bits. constructor; [left; reflexivity | constructor].
  - apply zfill_bits, bin_pos_bits. constructor.
Qed.

Lemma delimiter_bits : Forall is_bit delimiter.
Proof.
  unfold delimiter. simpl.
  repeat (constructor; [first [left; reflexivity | right; reflexivity]|]).
  constructor.
Qed.

Lemma message_bits_bits (m : pystr) :
  Forall is_bit (concat (map (fun c => format_08b (ord c)) m)).
Proof.
  induction m as [|c m IH]; simpl; [constructor|].
  apply Forall_app. split; [apply format_08b_bits | exact IH].
Qed.

Lemma binary_message_bits (m : pystr) : Forall is_bit (binary_message_of m).
Proof.
  unfold binary_message_of. apply Forall_app.
  split; [apply message_bits_bits | apply delimiter_bits].
Qed.

(** ** The encoder loop *)

(** The cases of [r, g, b = pixel]: fewer than three, exactly three, or
    more than three values. *)
Ltac unpack_tuple cs := destruct cs as [|? [|? [|? [|? ?]]]].

Lemma embed_chs_app (bm : str) (i : nat) (xs ys : list Z) :
  embed_chs bm i (xs ++ ys) =
  (fst (embed_chs bm i xs) ++ fst (embed_chs bm (snd (embed_chs bm i xs)) ys),
   snd (embed_chs bm (snd (embed_chs bm i xs)) ys)).
Proof.
  revert i. induction xs as [|x xs IH]; intros i; simpl.
  - destruct (embed_chs bm i ys); reflexivity.
  - destruct (nth_error bm i) as [c|].
    + rewrite IH. destruct (embed_chs bm (S i) xs) as [r j]. reflexivity.
    + rewrite IH. destruct (embed_chs bm i xs) as [r j]. reflexivity.
Qed.

Lemma hide_pixel_unpack (bm : str) (i : nat) (cs : list Z) :
  length cs <> 3%nat -> hide_pixel bm i (PTuple cs) = Raise (UnpackError (length cs)).
Proof.
  intros H. unpack_tuple cs; simpl in *; try reflexivity. lia.
Qed.

Section EncoderLoop.

(** The loop is run on a payload of bit characters only, which is what
    line 21 builds; [int(binary_message[msg_index])] then never raises. *)
Variable bm : str.
Hypothesis bm_bits : Forall is_bit bm.

Lemma embed_bits (i : nat) (x : Z) :
  embed bm i x =
  Ok (match nth_error bm i with
      | Some c => (put_lsb x c, S i)
      | None => (x, i)
      end).
Proof.
  unfold embed, getitem.
  destruct (nth_error bm i) as [c|] eqn:E.
  - assert (Hlt : (i < length bm)%nat) by (apply nth_error_Some; congruence).
    apply Nat.ltb_lt in Hlt. rewrite Hlt. simpl.
    assert (Hc : is_bit c).
    { rewrite Forall_forall in bm_bits. apply bm_bits. eapply nth_error_In; eauto. }
    destruct (is_bit_cases c Hc) as [-> _]. reflexivity.
  - apply nth_error_None in E.
    destruct (Nat.ltb_spec i (length bm)); [lia | reflexivity].
Qed.

Lemma hide_pixel_bits (i : nat) (p : pixel) :
  rgb_or_int p ->
  exists p', hide_pixel bm i p = Ok (p', snd (embed_chs bm i (channels_of p))) /\
             channels_of p' = fst (embed_chs bm i (channels_of p)) /\
             shape p' = shape p.
Proof.
  intros Hp. destruct p as [v | cs]; cbn -[nth_error] in *.
  - rewrite embed_bits.
    destruct (nth_error bm i); cbn; eexists; repeat split.
  - unpack_tuple cs; cbn in Hp; try discriminate.
    cbn -[nth_error]. rewrite embed_bits.
    destruct (nth_error bm i) as [c1|] eqn:E1; cbn -[nth_error].
    + rewrite embed_bits.
      destruct (nth_error bm (S i)) as [c2|] eqn:E2; cbn -[nth_error].
      * rewrite embed_bits.
        destruct (nth_error bm (S (S i))) as [c3|] eqn:E3; cbn;
          eexists; repeat split.
      * rewrite embed_bits, E2. cbn. eexists; repeat split.
    + rewrite embed_bits, E1. cbn -[nth_error].
      rewrite embed_bits, E1. cbn. eexists; repeat split.
Qed.

Lemma hide_loop_bits (pixels : list pixel) :
  Forall rgb_or_int pixels ->
  forall new_pixels i,
  exists ps, hide_loop bm pixels new_pixels i = Ok (new_pixels ++ ps) /\
             flat_map channels_of ps =
             fst (embed_chs bm i (flat_map channels_of pixels)) /\
             map shape ps = map shape pixels.
Proof.
  intros Hps. induction Hps as [|p pixels Hp _ IH]; intros acc i; simpl.
  - exists []. rewrite app_nil_r. repeat split.
  - destruct (hide_pixel_bits i p Hp) as (p' & E & Hch & Hsh).
    rewrite E. simpl.
    destruct (IH (acc ++ [p']) (snd (embed_chs bm i (channels_of p))))
      as (ps & E' & Hch' & Hsh').
    exists (p' :: ps). rewrite E', <- app_assoc. simpl. repeat split.
    + rewrite embed_chs_app. simpl. rewrite Hch, Hch'. reflexivity.
    + rewrite Hsh, Hsh'. reflexivity.
Qed.

(** The loop stops at the first tuple that is not a triple: the pixels
    before it are processed without an exception. *)
Lemma hide_loop_unpack (pixels : list pixel) :
  Exists (fun p => ~ rgb_or_int p) pixels ->
  forall acc i, exists k, k <> 3%nat /\ hide_loop bm pixels acc i = Raise (UnpackError k).
Proof.
  induction 1 as [p pixels Hp | p pixels _ IH]; intros acc i.
  - destruct p as [v | cs]; simpl in Hp; [tauto|].
    exists (length cs). split; [assumption|].
    cbn [hide_loop]. rewrite hide_pixel_unpack by assumption. reflexivity.
  - destruct p as [v | cs].
    + destruct (hide_pixel_bits i (PInt v) I) as (p' & E & _).
      cbn [hide_loop]. rewrite E. simpl. apply IH.
    + destruct (Nat.eq_dec (length cs) 3) as [H3 | H3].
      * destruct (hide_pixel_bits i (PTuple cs) H3) as (p' & E & _).
        cbn [hide_loop]. rewrite E. simpl. apply IH.
      * exists (length cs). split; [assumption|].
        cbn [hide_loop]. rewrite hide_pixel_unpack by assumption. reflexivity.
Qed.

End EncoderLoop.

Lemma skipn_nth_error_Some (bm : str) (i : nat) (c : ascii) :
  nth_error bm i = Some c -> skipn i bm = c :: skipn (S i) bm.
Proof.
  revert i. induction bm as [|d bm IH]; intros [|i] H; simpl in *; try discriminate.
  - injection H as ->. reflexivity.
  - apply IH in H. rewrite H. destruct bm; reflexivity.
Qed.

Lemma embed_spec_nil (xs : list Z) : embed_spec [] xs = xs.
Proof. destruct xs; reflexivity. Qed.

Lemma embed_chs_spec (bm : str) (xs : list Z) (i : nat) :
  fst (embed_chs bm i xs) = embed_spec (skipn i bm) xs.
Proof.
  revert i. induction xs as [|x xs IH]; intros i; cbn -[nth_error skipn].
  - destruct (skipn i bm); reflexivity.
  - destruct (nth_error bm i) as [c|] eqn:E.
    + rewrite (skipn_nth_error_Some _ _ _ E).
      specialize (IH (S i)). destruct (embed_chs bm (S i) xs) as [r j].
      cbn -[skipn] in *. rewrite IH. reflexivity.
    + apply nth_error_None in E. specialize (IH i).
      rewrite skipn_all2 in * by assumption.
      destruct (embed_chs bm i xs) as [r j]. cbn in *.
      rewrite IH. destruct xs; reflexivity.
Qed.

(** What [hide_message] does on every grid it can destructure. *)
Lemma hide_message_spec (img : image) (m : pystr) :
  supported img ->
  exists ps, hide_message img m = Ok (mkImage (mode img) (size img) ps) /\
             flat_map channels_of ps = embed_spec (binary_message_of m) (channels img) /\
             map shape ps = map shape (getdata img).
Proof.
  intros Hs. unfold hide_message.
  destruct (hide_loop_bits (binary_message_of m) (binary_message_bits m)
              (getdata img) Hs [] 0%nat) as (ps & E & Hch & Hsh).
  exists ps. rewrite E. simpl. repeat split; [|assumption].
  rewrite Hch, embed_chs_spec. reflexivity.
Qed.

(** ** Streams of channels *)

Lemma embed_spec_length (bits : str) (xs : list Z) :
  length (embed_spec bits xs) = length xs.
Proof.
  revert bits. induction xs as [|x xs IH]; intros [|c bits]; simpl; auto.
Qed.

Lemma embed_spec_lsb (bits : str) (xs : list Z) :
  Forall is_bit bits ->
  map lsb_char (embed_spec bits xs) =
  firstn (length xs) bits ++ skipn (length bits) (map lsb_char xs).
Proof.
  intros Hb. revert xs. induction Hb as [|c bits Hc _ IH]; intros xs.
  - rewrite embed_spec_nil, firstn_nil. reflexivity.
  - destruct xs as [|x xs]; simpl; [reflexivity|].
    rewrite lsb_char_put_lsb by assumption. rewrite IH. reflexivity.
Qed.

Lemma embed_spec_upper (bits : str) (xs : list Z) :
  Forall is_bit bits ->
  map (fun x => Z.shiftr x 1) (embed_spec bits xs) = map (fun x => Z.shiftr x 1) xs.
Proof.
  intros Hb. revert xs. induction Hb as [|c bits Hc _ IH]; intros xs.
  - rewrite embed_spec_nil. reflexivity.
  - destruct xs as [|x xs]; simpl; [reflexivity|].
    rewrite put_lsb_upper by assumption. rewrite IH. reflexivity.
Qed.

Lemma embed_spec_nth (bits : str) (xs : list Z) (i : nat) (x : Z) :
  nth_error xs i = Some x ->
  nth_error (embed_spec bits xs) i =
  Some (match nth_error bits i with Some c => put_lsb x c | None => x end).
Proof.
  revert bits i. induction xs as [|y xs IH]; intros bits i H.
  - destruct i; discriminate.
  - destruct bits as [|c bits].
    + rewrite embed_spec_nil, H. destruct i; reflexivity.
    + destruct i as [|i]; simpl in *.
      * injection H as ->. reflexivity.
      * apply IH. exact H.
Qed.

Lemma shape_supported (ps qs : list pixel) :
  map shape ps = map shape qs -> Forall rgb_or_int qs -> Forall rgb_or_int ps.
Proof.
  revert qs. induction ps as [|p ps IH]; intros [|q qs] H Hq; try discriminate.
  - constructor.
  - simpl in H. injection H as Hp Hps. inversion Hq as [|? ? Hq1 Hq2]; subst.
    constructor; [|eauto].
    destruct p, q; simpl in *; try discriminate; auto.
    injection Hp as ->. exact Hq1.
Qed.

(** ** The decoder's bitstream *)

Lemma extract_loop_supported (pixels : list pixel) :
  Forall rgb_or_int pixels ->
  forall acc, extract_loop pixels acc =
              Ok (acc ++ map lsb_char (flat_map channels_of pixels)).
Proof.
  induction 1 as [|p pixels Hp _ IH]; intros acc; simpl.
  - rewrite app_nil_r. reflexivity.
  - destruct p as [v | cs]; simpl in *.
    + rewrite IH, str_of_int_lsb, <- app_assoc. reflexivity.
    + unpack_tuple cs; simpl in Hp; try discriminate.
      rewrite IH, !str_of_int_lsb, <- app_assoc. reflexivity.
Qed.

Lemma extract_loop_unpack (pixels : list pixel) :
  Exists (fun p => ~ rgb_or_int p) pixels ->
  forall acc, exists k, k <> 3%nat /\ extract_loop pixels acc = Raise (UnpackError k).
Proof.
  induction 1 as [p pixels Hp | p pixels _ IH]; intros acc.
  - destruct p as [v | cs]; simpl in Hp; [tauto|].
    exists (length cs). split; [assumption|].
    unpack_tuple cs; simpl in *; try reflexivity. lia.
  - destruct p as [v | cs]; simpl.
    + apply IH.
    + unpack_tuple cs; try (eexists; split; [|reflexivity]; simpl; lia).
      apply IH.
Qed.


(** ** [find] and first occurrences *)

Lemma startswith_firstn (sub s : str) :
  startswith s sub = true <-> firstn (length sub) s = sub.
Proof.
  revert s. induction sub as [|c sub IH]; intros s; simpl.
  - destruct s; simpl; tauto.
  - destruct s as [|d s]; simpl.
    + split; discriminate.
    + rewrite andb_true_iff, Ascii.eqb_eq, IH. split.
      * intros [-> ->]. reflexivity.
      * intros H. injection H as -> H. auto.
Qed.

Lemma occurs_at_0 (s sub : str) : occurs_at s sub 0 <-> startswith s sub = true.
Proof. unfold occurs_at. simpl. symmetry. apply startswith_firstn. Qed.

Lemma occurs_at_S (d : ascii) (s sub : str) (q : nat) :
  occurs_at (d :: s) sub (S q) <-> occurs_at s sub q.
Proof. unfold occurs_at. simpl. tauto. Qed.

Lemma occurs_at_bound (s sub : str) (q : nat) :
  occurs_at s sub q -> (q + length sub <= length s)%nat \/ sub = [].
Proof.
  unfold occurs_at. intros H.
  destruct sub as [|c sub]; [right; reflexivity | left].
  assert (L : length (firstn (length (c :: sub)) (skipn q s)) = length (c :: sub))
    by (rewrite H; reflexivity).
  rewrite length_firstn, length_skipn in L. cbn [length] in *. lia.
Qed.

Lemma find_from_shift (s sub : str) (i : nat) :
  find_from s sub i = option_map (Nat.add i) (find_from s sub 0).
Proof.
  revert i. induction s as [|d s IH]; intros i; cbn [find_from].
  - destruct (startswith [] sub); simpl; [f_equal; lia | reflexivity].
  - destruct (startswith (d :: s) sub); simpl.
    + f_equal. lia.
    + rewrite (IH (S i)), (IH 1%nat).
      destruct (find_from s sub 0); simpl; [f_equal; lia | reflexivity].
Qed.

Lemma find_from_first (s sub : str) (p : nat) :
  find_from s sub 0 = Some p -> first_occurrence s sub p.
Proof.
  revert p. induction s as [|d s IH]; intros p; cbn [find_from].
  - destruct (startswith [] sub) eqn:E; [|discriminate].
    intros H. injection H as <-. split; [apply occurs_at_0; exact E | lia].
  - destruct (startswith (d :: s) sub) eqn:E.
    + intros H. injection H as <-. split; [apply occurs_at_0; exact E | lia].
    + rewrite find_from_shift. destruct (find_from s sub 0) as [p'|]; [|discriminate].
      simpl. intros H. injection H as <-.
      destruct (IH p' eq_refl) as [Ho Hn]. split.
      * apply occurs_at_S. exact Ho.
      * intros [|q] Hq.
        -- rewrite occurs_at_0, E. discriminate.
        -- rewrite occurs_at_S. apply Hn. lia.
Qed.

Lemma find_from_none (s sub : str) :
  find_from s sub 0 = None -> forall q, ~ occurs_at s sub q.
Proof.
  induction s as [|d s IH]; cbn [find_from].
  - destruct (startswith [] sub) eqn:E; [discriminate|]. intros _ q Hq.
    destruct sub as [|c sub]; [discriminate|].
    unfold occurs_at in Hq. rewrite skipn_nil, firstn_nil in Hq. discriminate.
  - destruct (startswith (d :: s) sub) eqn:E; [discriminate|].
    rewrite find_from_shift. destruct (find_from s sub 0); [discriminate|].
    intros _ [|q].
    + rewrite occurs_at_0, E. discriminate.
    + rewrite occurs_at_S. apply IH. reflexivity.
Qed.

Lemma first_occurrence_find (s sub : str) (p : nat) :
  first_occurrence s sub p -> find_from s sub 0 = Some p.
Proof.
  intros [Ho Hn]. destruct (find_from s sub 0) as [p'|] eqn:E.
  - apply find_from_first in E. destruct E as [Ho' Hn'].
    destruct (Nat.lt_trichotomy p p') as [H | [H | H]].
    + exfalso. exact (Hn' p H Ho).
    + congruence.
    + exfalso. exact (Hn p' H Ho').
  - exfalso. exact (find_from_none s sub E p Ho).
Qed.

Lemma no_occurrence_find (s sub : str) :
  (forall q, ~ occurs_at s sub q) -> find_from s sub 0 = None.
Proof.
  intros H. destruct (find_from s sub 0) as [p|] eqn:E; [|reflexivity].
  apply find_from_first in E. destruct E as [Ho _]. exfalso. exact (H p Ho).
Qed.

Lemma firstn_skipn_app (s t : str) (q k : nat) :
  (q + k <= length s)%nat ->
  firstn k (skipn q (s ++ t)) = firstn k (skipn q s).
Proof.
  intros H. rewrite skipn_app, firstn_app, length_skipn.
  replace (k - (length s - q))%nat with 0%nat by lia.
  rewrite firstn_O, app_nil_r. reflexivity.
Qed.

(** ** Binary numerals *)

Lemma int2_digits_app (s t : str) (acc : Z) :
  int2_digits acc (s ++ t) = (n <- int2_digits acc s ;; int2_digits n t).
Proof.
  revert acc. induction s as [|c s IH]; intros acc; simpl; [reflexivity|].
  destruct (Ascii.eqb c "0"); [apply IH|].
  destruct (Ascii.eqb c "1"); [apply IH | reflexivity].
Qed.

Lemma int2_digits_bound (s : str) :
  Forall is_bit s ->
  forall acc, 0 <= acc ->
  exists n, int2_digits acc s = Ok n /\ 0 <= n < (acc + 1) * 2 ^ Z.of_nat (length s).
Proof.
  induction 1 as [|c s Hc _ IH]; intros acc Hacc.
  - exists acc. simpl. split; [reflexivity | lia].
  - cbn [length]. rewrite Nat2Z.inj_succ, Z.pow_succ_r by lia.
    assert (HP : 0 < 2 ^ Z.of_nat (length s)) by (apply Z.pow_pos_nonneg; lia).
    destruct Hc as [-> | ->]; cbn -[Z.mul Z.add Z.pow Z.of_nat].
    + destruct (IH (2 * acc) ltac:(lia)) as (n & E & B).
      exists n. split; [exact E | nia].
    + destruct (IH (2 * acc + 1) ltac:(lia)) as (n & E & B).
      exists n. split; [exact E | nia].
Qed.

(** Every non-empty group of at most 8 bits decodes to a character. *)
Lemma char_of_bits_total (s : str) :
  Forall is_bit s -> s <> [] -> (length s <= 8)%nat ->
  exists c, char_of_bits s = Ok c /\ (c < 256)%N.
Proof.
  intros Hs Hne Hlen.
  destruct (int2_digits_bound s Hs 0 ltac:(lia)) as (n & E & B).
  assert (Hn : 0 <= n < 256).
  { assert (2 ^ Z.of_nat (length s) <= 2 ^ 8) by (apply Z.pow_le_mono_r; lia).
    change (2 ^ 8) with 256 in *. lia. }
  exists (Z.to_N n). unfold char_of_bits, int_base2.
  destruct s as [|c s]; [congruence|]. rewrite E. simpl. unfold chr.
  replace ((0 <=? n) && (n <=? 1114111)) with true
    by (symmetry; apply andb_true_iff; split; apply Z.leb_le; lia).
  split; [reflexivity | lia].
Qed.

Lemma bin_pos_acc (p : positive) (acc : str) : bin_pos p acc = bin_pos p [] ++ acc.
Proof.
  revert acc. induction p as [q IH | q IH |]; intros acc; simpl; try reflexivity.
  - rewrite (IH ["1"%char]), (IH ("1"%char :: acc)), <- app_assoc. reflexivity.
  - rewrite (IH ["0"%char]), (IH ("0"%char :: acc)), <- app_assoc. reflexivity.
Qed.

Lemma bin_pos_length (p : positive) : length (bin_pos p []) = Pos.size_nat p.
Proof.
  induction p as [q IH | q IH |]; simpl; try reflexivity;
    rewrite bin_pos_acc, length_app, IH; simpl; lia.
Qed.

Lemma int2_digits_bin_pos (p : positive) (acc : Z) :
  int2_digits acc (bin_pos p []) = Ok (acc * 2 ^ Z.of_nat (Pos.size_nat p) + Zpos p).
Proof.
  revert acc. induction p as [q IH | q IH |]; intros acc;
    cbn [bin_pos Pos.size_nat]; rewrite ?Nat2Z.inj_succ, ?Z.pow_succ_r by lia.
  - rewrite bin_pos_acc, int2_digits_app, IH. cbn -[Z.mul Z.add Z.pow Z.of_nat].
    f_equal. generalize (2 ^ Z.of_nat (Pos.size_nat q)). intros P.
    rewrite (Pos2Z.inj_xI q). lia.
  - rewrite bin_pos_acc, int2_digits_app, IH. cbn -[Z.mul Z.add Z.pow Z.of_nat].
    f_equal. generalize (2 ^ Z.of_nat (Pos.size_nat q)). intros P.
    rewrite (Pos2Z.inj_xO q). lia.
  - cbn -[Z.mul Z.add Z.pow Z.of_nat]. f_equal. change (Z.of_nat 0) with 0.
    rewrite Z.pow_0_r. lia.
Qed.

Lemma int2_digits_zeros (k : nat) (s : str) (acc : Z) :
  int2_digits 0 (repeat "0"%char k ++ s) = int2_digits 0 s.
Proof. induction k as [|k IH]; simpl; [reflexivity | exact IH]. Qed.

Lemma size_nat_bounds (p : positive) :
  2 ^ Z.of_nat (Pos.size_nat p) <= 2 * Zpos p < 2 * 2 ^ Z.of_nat (Pos.size_nat p).
Proof.
  induction p as [q IH | q IH |]; cbn [Pos.size_nat].
  - rewrite Nat2Z.inj_succ, Z.pow_succ_r, (Pos2Z.inj_xI q) by lia. lia.
  - rewrite Nat2Z.inj_succ, Z.pow_succ_r, (Pos2Z.inj_xO q) by lia. lia.
  - change (2 ^ Z.of_nat 1) with 2. lia.
Qed.

(** [format(n, '08b')] never loses a digit: reading it back in base 2 gives [n]. *)
Lemma int_base2_format_08b (c : N) : int_base2 (format_08b (ord c)) = Ok (ord c).
Proof.
  unfold ord. destruct c as [|p]; [reflexivity|]. simpl Z.of_N. cbn [format_08b].
  unfold int_base2, zfill.
  destruct (repeat "0"%char (8 - length (bin_pos p [])) ++ bin_pos p []) eqn:E.
  - apply app_eq_nil in E. destruct E as [_ E].
    assert (L := bin_pos_length p). rewrite E in L. destruct p; discriminate.
  - rewrite <- E, int2_digits_zeros by exact 0. rewrite int2_digits_bin_pos. reflexivity.
Qed.

Lemma format_08b_length_pos (p : positive) :
  length (format_08b (Zpos p)) = Nat.max 8 (Pos.size_nat p).
Proof.
  cbn [format_08b]. unfold zfill.
  rewrite length_app, repeat_length, bin_pos_length. lia.
Qed.

(** Code points up to 255 take exactly 8 payload bits. *)
Lemma format_08b_length_byte (c : N) :
  (c <= 255)%N -> length (format_08b (ord c)) = 8%nat.
Proof.
  intros Hc. unfold ord. destruct c as [|p]; [reflexivity|]. cbn [Z.of_N].
  rewrite format_08b_length_pos.
  destruct (size_nat_bounds p) as [Hlo _].
  assert (Hlt : 2 ^ Z.of_nat (Pos.size_nat p) < 2 ^ 9).
  { change (2 ^ 9) with 512. lia. }
  apply Z.pow_lt_mono_r_iff in Hlt; lia.
Qed.

(** Code points above 255 take more than 8 payload bits. *)
Lemma format_08b_length_wide (c : N) :
  (255 < c)%N -> (8 < length (format_08b (ord c)))%nat.
Proof.
  intros Hc. unfold ord. destruct c as [|p]; [lia|]. cbn [Z.of_N].
  rewrite format_08b_length_pos.
  destruct (size_nat_bounds p) as [_ Hhi].
  assert (Hlt : 2 ^ 8 < 2 ^ Z.of_nat (Pos.size_nat p)).
  { change (2 ^ 8) with 256. lia. }
  apply Z.pow_lt_mono_r_iff in Hlt; lia.
Qed.

Lemma format_08b_length_min (c : N) : (8 <= length (format_08b (ord c)))%nat.
Proof.
  unfold ord. destruct c as [|p]; [simpl; lia|]. cbn [Z.of_N].
  rewrite format_08b_length_pos. lia.
Qed.

Lemma char_of_bits_format_08b (c : N) :
  (c <= 255)%N -> char_of_bits (format_08b (ord c)) = Ok c.
Proof.
  intros Hc. unfold char_of_bits. rewrite int_base2_format_08b. simpl. unfold chr, ord.
  replace ((0 <=? Z.of_N c) && (Z.of_N c <=? 1114111)) with true
    by (symmetry; apply andb_true_iff; split; apply Z.leb_le; lia).
  rewrite N2Z.id. reflexivity.
Qed.

(** ** The decoding loop *)

Lemma mapM_map {A B C : Type} (f : B -> result C) (g : A -> B) (l : list A) :
  mapM f (map g l) = mapM (fun a => f (g a)) l.
Proof.
  induction l as [|a l IH]; simpl; [reflexivity|]. rewrite IH. reflexivity.
Qed.

Lemma mapM_total {A B : Type} (f : A -> result B) (l : list A) :
  Forall (fun a => exists b, f a = Ok b) l -> exists bs, mapM f l = Ok bs.
Proof.
  induction 1 as [|a l [b Hb] _ [bs IH]]; simpl.
  - eauto.
  - rewrite Hb, IH. simpl. eauto.
Qed.

Lemma decode_loop_mapM (bm : str) (indices : list nat) (acc : pystr) :
  decode_loop bm indices acc =
  (cs <- mapM (fun i => char_of_bits (slice bm i (i + 8))) indices ;; Ok (acc ++ cs)).
Proof.
  revert acc. induction indices as [|i rest IH]; intros acc; simpl.
  - rewrite app_nil_r. reflexivity.
  - unfold char_of_bits.
    destruct (int_base2 (slice bm i (i + 8))) as [n|e]; simpl; [|reflexivity].
    destruct (chr n) as [c|e]; simpl; [|reflexivity].
    rewrite IH.
    destruct (mapM _ rest) as [cs|e]; simpl; [|reflexivity].
    rewrite <- app_assoc. reflexivity.
Qed.

Lemma decode_loop_groups (bits : str) :
  decode_loop bits (range0 (length bits) 8) [] = mapM char_of_bits (groups_of_8 bits).
Proof.
  rewrite decode_loop_mapM. unfold groups_of_8. rewrite mapM_map.
  destruct (mapM _ _); reflexivity.
Qed.

Lemma range0_lt (n i : nat) : In i (range0 n 8) -> (i < n)%nat.
Proof.
  unfold range0. rewrite in_map_iff. intros (k & <- & Hk).
  apply in_seq in Hk.
  pose proof (Nat.div_mod_eq (n + 8 - 1) 8) as E.
  pose proof (Nat.mod_upper_bound (n + 8 - 1) 8 ltac:(lia)) as B.
  lia.
Qed.

Lemma Forall_slice (P : ascii -> Prop) (s : str) (i j : nat) :
  Forall P s -> Forall P (slice s i j).
Proof.
  intros H. unfold slice.
  rewrite <- (firstn_skipn i s) in H. apply Forall_app in H as [_ H].
  rewrite <- (firstn_skipn (j - i) (skipn i s)) in H. apply Forall_app in H as [H _].
  exact H.
Qed.

Lemma groups_of_8_total (bits : str) :
  Forall is_bit bits ->
  exists cs, mapM char_of_bits (groups_of_8 bits) = Ok cs.
Proof.
  intros Hb. apply mapM_total. unfold groups_of_8.
  apply Forall_forall. intros g Hg. apply in_map_iff in Hg as (i & <- & Hi).
  apply range0_lt in Hi.
  destruct (char_of_bits_total (slice bits i (i + 8))) as (c & E & _).
  - apply Forall_slice. exact Hb.
  - intros E. apply (f_equal (@length ascii)) in E. unfold slice in E.
    rewrite length_firstn, length_skipn in E. simpl in E. lia.
  - unfold slice. rewrite length_firstn. lia.
  - eauto.
Qed.

Lemma slice_shift (l rest : str) (j : nat) :
  slice (l ++ rest) (length l + j) (length l + j + 8) = slice rest j (j + 8).
Proof.
  unfold slice. rewrite skipn_app.
  rewrite skipn_all2 by lia.
  replace (length l + j - length l)%nat with j by lia.
  replace (length l + j + 8 - (length l + j))%nat with (j + 8 - j)%nat by lia.
  reflexivity.
Qed.

Lemma groups_of_8_cons (l rest : str) :
  length l = 8%nat -> groups_of_8 (l ++ rest) = l :: groups_of_8 rest.
Proof.
  intros Hl. unfold groups_of_8, range0. rewrite length_app, Hl.
  replace (8 + length rest + 8 - 1)%nat with ((length rest + 8 - 1) + 1 * 8)%nat by lia.
  rewrite Nat.div_add by lia. rewrite Nat.add_1_r.
  cbn [seq map]. rewrite <- seq_shift, !map_map. f_equal.
  - unfold slice. change (0 * 8 + 8 - 0 * 8)%nat with 8%nat.
    change (0 * 8)%nat with 0%nat. cbn [skipn].
    rewrite firstn_app, Hl, Nat.sub_diag, firstn_O, app_nil_r.
    apply firstn_all2. lia.
  - apply map_ext. intros k.
    replace (S k * 8)%nat with (length l + k * 8)%nat by lia.
    apply slice_shift.
Qed.

Lemma groups_of_8_concat (chunks : list str) :
  Forall (fun l => length l = 8%nat) chunks -> groups_of_8 (concat chunks) = chunks.
Proof.
  induction 1 as [|l chunks Hl _ IH]; simpl; [reflexivity|].
  rewrite groups_of_8_cons by assumption. rewrite IH. reflexivity.
Qed.

Lemma complete_groups_range (bits : str) (q : nat) :
  map (fun i => slice bits i (i + 8)) (map (fun k => (k * 8)%nat) (seq 0 q)) =
  map (fun k => slice bits (8 * k) (8 * k + 8)) (seq 0 q).
Proof.
  rewrite map_map. apply map_ext. intros k.
  replace (k * 8)%nat with (8 * k)%nat by lia. reflexivity.
Qed.

(** Leftover bits are a group of their own: [range(0, len, 8)] also yields
    the offset of an incomplete final group. *)
Lemma groups_of_8_partial (bits : str) :
  (length bits mod 8 <> 0)%nat ->
  groups_of_8 bits = complete_groups bits ++ [skipn (8 * (length bits / 8)) bits].
Proof.
  intros Hr. unfold groups_of_8, complete_groups, range0.
  pose proof (Nat.div_mod_eq (length bits) 8) as E.
  pose proof (Nat.mod_upper_bound (length bits) 8 ltac:(lia)) as B.
  set (q := (length bits / 8)%nat) in *. set (r := (length bits mod 8)%nat) in *.
  assert (Hq : ((length bits + 8 - 1) / 8 = q + 1)%nat).
  { symmetry. apply (Nat.div_unique _ 8 (q + 1) (r - 1)); lia. }
  rewrite Hq, seq_app, !map_app, complete_groups_range. f_equal.
  simpl. f_equal. unfold slice.
  replace (q * 8)%nat with (8 * q)%nat by lia.
  apply firstn_all2. rewrite length_skipn. lia.
Qed.

Lemma groups_of_8_exact (bits : str) :
  (length bits mod 8 = 0)%nat -> groups_of_8 bits = complete_groups bits.
Proof.
  intros Hr. unfold groups_of_8, complete_groups, range0.
  pose proof (Nat.div_mod_eq (length bits) 8) as E.
  set (q := (length bits / 8)%nat) in *.
  assert (Hq : ((length bits + 8 - 1) / 8 = q)%nat).
  { symmetry. apply (Nat.div_unique _ 8 q 7); lia. }
  rewrite Hq. apply complete_groups_range.
Qed.

(** ** [extract_message] on grids it can destructure *)

Lemma lsb_stream_bits (img : image) : Forall is_bit (lsb_stream img).
Proof.
  unfold lsb_stream. apply Forall_forall. intros c Hc.
  apply in_map_iff in Hc as (v & <- & _). unfold lsb_char, is_bit.
  destruct (Z.odd v); auto.
Qed.

Lemma extract_message_found (img : image) (p : nat) :
  supported img -> first_occurrence (lsb_stream img) delimiter p ->
  extract_message img = mapM char_of_bits (groups_of_8 (firstn p (lsb_stream img))).
Proof.
  intros Hs Hp. unfold extract_message.
  rewrite extract_loop_supported by exact Hs. cbn [bind app].
  fold (channels img). fold (lsb_stream img).
  unfold find. rewrite (first_occurrence_find _ _ _ Hp).
  destruct (Z.eqb_spec (Z.of_nat p) (-1)) as [E|_]; [lia|].
  rewrite Nat2Z.id. apply decode_loop_groups.
Qed.

Lemma extract_message_absent (img : image) :
  supported img -> (forall q, ~ occurs_at (lsb_stream img) delimiter q) ->
  extract_message img = Ok No_message_found.
Proof.
  intros Hs Hn. unfold extract_message.
  rewrite extract_loop_supported by exact Hs. cbn [bind app].
  fold (channels img). fold (lsb_stream img).
  unfold find. rewrite (no_occurrence_find _ _ Hn). reflexivity.
Qed.

Lemma not_supported_Exists (pixels : list pixel) :
  (exists cs, In (PTuple cs) pixels /\ length cs <> 3%nat) ->
  Exists (fun p => ~ rgb_or_int p) pixels.
Proof.
  intros (cs & Hin & Hlen). apply Exists_exists.
  exists (PTuple cs). split; [exact Hin | exact Hlen].
Qed.

(** ** Length of the payload *)

Lemma message_bits_length_min (m : pystr) :
  (8 * length m <= length (concat (map (fun c => format_08b (ord c)) m)))%nat.
Proof.
  induction m as [|c m IH]; simpl; [lia|].
  rewrite length_app. pose proof (format_08b_length_min c). lia.
Qed.

Lemma message_bits_length (m : pystr) :
  Forall (fun c => (c <= 255)%N) m ->
  length (concat (map (fun c => format_08b (ord c)) m)) = (8 * length m)%nat.
Proof.
  induction 1 as [|c m Hc _ IH]; simpl; [reflexivity|].
  rewrite length_app, format_08b_length_byte, IH by assumption. lia.
Qed.

Lemma message_bits_length_wide (m : pystr) :
  Exists (fun c => (255 < c)%N) m ->
  (8 * length m < length (concat (map (fun c => format_08b (ord c)) m)))%nat.
Proof.
  induction 1 as [c m Hc | c m _ IH]; simpl; rewrite length_app.
  - pose proof (format_08b_length_wide c Hc). pose proof (message_bits_length_min m). lia.
  - pose proof (format_08b_length_min c). lia.
Qed.

Lemma binary_message_length (m : pystr) :
  length (binary_message_of m) =
  (length (concat (map (fun c => format_08b (ord c)) m)) + 16)%nat.
Proof. unfold binary_message_of. rewrite length_app. reflexivity. Qed.

Lemma binary_message_length_bytes (m : pystr) :
  Forall (fun c => (c <= 255)%N) m ->
  length (binary_message_of m) = (8 * length m + 16)%nat.
Proof.
  intros Hm. rewrite binary_message_length, message_bits_length by exact Hm. reflexivity.
Qed.

(** ** [hide_message] as a whole *)

Lemma hide_message_stream (img : image) (m : pystr) :
  supported img ->
  exists img', hide_message img m = Ok img' /\
               mode img' = mode img /\ size img' = size img /\
               map shape (getdata img') = map shape (getdata img) /\
               supported img' /\
               channels img' = embed_spec (binary_message_of m) (channels img).
Proof.
  intros Hs. destruct (hide_message_spec img m Hs) as (ps & E & Hch & Hsh).
  eexists. split; [exact E|]. cbn. repeat split; try assumption.
  unfold supported. cbn. eapply shape_supported; eauto.
Qed.

Lemma rgb_or_int_dec (p : pixel) : {rgb_or_int p} + {~ rgb_or_int p}.
Proof.
  destruct p as [v | cs]; simpl; [left; exact I | apply Nat.eq_dec].
Qed.

Lemma hide_message_Ok_supported (img img' : image) (m : pystr) :
  hide_message img m = Ok img' -> supported img.
Proof.
  intros H. destruct (Forall_Exists_dec rgb_or_int rgb_or_int_dec (getdata img))
    as [Hs | Hbad]; [exact Hs|].
  destruct (hide_loop_unpack (binary_message_of m) (binary_message_bits m)
              (getdata img) Hbad [] 0%nat) as (k & _ & E).
  unfold hide_message in H. rewrite E in H. discriminate.
Qed.

Lemma extract_message_Ok_supported (img : image) (msg : pystr) :
  extract_message img = Ok msg -> supported img.
Proof.
  intros H. destruct (Forall_Exists_dec rgb_or_int rgb_or_int_dec (getdata img))
    as [Hs | Hbad]; [exact Hs|].
  destruct (extract_loop_unpack (getdata img) Hbad []) as (k & _ & E).
  unfold extract_message in H. rewrite E in H. discriminate.
Qed.

Lemma all_even_no_occurrence (img : image) :
  Forall (fun v => Z.even v = true) (channels img) ->
  forall q, ~ occurs_at (lsb_stream img) delimiter q.
Proof.
  intros Hev q Hq.
  assert (Hz : Forall (fun c => c = "0"%char) (lsb_stream img)).
  { unfold lsb_stream. apply Forall_forall. intros c Hc.
    apply in_map_iff in Hc as (v & <- & Hv).
    rewrite Forall_forall in Hev. specialize (Hev v Hv).
    unfold lsb_char. rewrite <- Z.negb_even, Hev. reflexivity. }
  apply (Forall_slice _ _ q (q + length delimiter)) in Hz.
  unfold slice in Hz. replace (q + length delimiter - q)%nat with (length delimiter) in Hz by lia.
  unfold occurs_at in Hq. rewrite Hq in Hz.
  inversion Hz as [|? ? H1 _]. discriminate H1.
Qed.

Lemma first_occurrence_length (s : str) (p : nat) :
  first_occurrence s delimiter p -> length (firstn p s) = p.
Proof.
  intros [Ho _]. apply occurs_at_bound in Ho as [Ho | Ho]; [|discriminate].
  rewrite length_firstn. lia.
Qed.

Lemma grid_32_well_formed : well_formed grid_32.
Proof.
  unfold well_formed, grid_32, gray. cbn [getdata size fst snd].
  split; [reflexivity|]. split; [|split].
  - intros p q Hp Hq. apply in_map_iff in Hp as (v & <- & _).
    apply in_map_iff in Hq as (w & <- & _). reflexivity.
  - intros cs H. apply in_map_iff in H as (v & E & _). discriminate.
  - unfold channels. cbn [getdata]. apply Forall_forall. intros v Hv.
    apply in_flat_map in Hv as (p & Hp & Hv).
    apply in_map_iff in Hp as (w & <- & Hw). apply repeat_spec in Hw. subst.
    destruct Hv as [<- | []]. lia.
Qed.

Lemma grid_rgba_well_formed : well_formed grid_rgba.
Proof.
  unfold well_formed, grid_rgba. cbn [getdata size fst snd].
  split; [reflexivity|]. split; [|split].
  - intros p q Hp Hq. apply repeat_spec in Hp, Hq. subst. reflexivity.
  - intros cs H. apply repeat_spec in H. injection H as ->. simpl. lia.
  - unfold channels. cbn [getdata]. apply Forall_forall. intros v Hv.
    apply in_flat_map in Hv as (p & Hp & Hv). apply repeat_spec in Hp. subst.
    simpl in Hv. intuition lia.
Qed.

(** * The claims *)

(** ** Round trip *)

(** What both claims about a full payload rest on: with room for the whole
    payload, the stego grid's LSB stream starts with the payload. *)
Lemma hide_message_fits (img : image) (m : pystr) :
  supported img ->
  (length (binary_message_of m) <= bit_count img)%nat ->
  exists img', hide_message img m = Ok img' /\ supported img' /\
               lsb_stream img' =
               binary_message_of m ++ skipn (length (binary_message_of m)) (lsb_stream img).
Proof.
  intros Hs Hcap.
  destruct (hide_message_stream img m Hs) as (img' & E & _ & _ & _ & Hs' & Hch).
  exists img'. repeat split; try assumption.
  unfold lsb_stream at 1. rewrite Hch, embed_spec_lsb by apply binary_message_bits.
  fold (bit_count img). rewrite firstn_all2 by exact Hcap. reflexivity.
Qed.

Lemma decode_message_bits (m : pystr) :
  Forall (fun c => (c <= 255)%N) m ->
  mapM char_of_bits (groups_of_8 (concat (map (fun c => format_08b (ord c)) m))) = Ok m.
Proof.
  intros Hm. rewrite groups_of_8_concat.
  - apply mapM_map_Ok. eapply Forall_impl; [|exact Hm].
    intros c Hc. apply char_of_bits_format_08b. exact Hc.
  - apply Forall_forall. intros l Hl. apply in_map_iff in Hl as (c & <- & Hc).
    apply format_08b_length_byte. rewrite Forall_forall in Hm. auto.
Qed.

Lemma roundtrip_core (img : image) (m : pystr) :
  supported img ->
  Forall (fun c => (c <= 255)%N) m ->
  (8 * length m + 16 <= bit_count img)%nat ->
  (forall q, (q < 8 * length m)%nat -> ~ occurs_at (binary_message_of m) delimiter q) ->
  exists img', hide_message img m = Ok img' /\ extract_message img' = Ok m.
Proof.
  intros Hs Hm Hcap Hfirst.
  pose proof (message_bits_length m Hm) as Hlen.
  pose proof (binary_message_length m) as Hblen. rewrite Hlen in Hblen.
  destruct (hide_message_fits img m Hs ltac:(lia)) as (img' & E & Hs' & Hst).
  exists img'. split; [exact E|].
  set (tail := skipn (length (binary_message_of m)) (lsb_stream img)) in *.
  assert (Hp : first_occurrence (lsb_stream img') delimiter (8 * length m)).
  { rewrite Hst. split.
    - unfold occurs_at, binary_message_of. rewrite <- app_assoc, <- Hlen.
      rewrite skipn_app, skipn_all, Nat.sub_diag. reflexivity.
    - intros q Hq Ho. apply (Hfirst q Hq). unfold occurs_at in *.
      rewrite firstn_skipn_app in Ho; [exact Ho|].
      rewrite Hblen. change (length delimiter) with 16%nat. lia. }
  rewrite (extract_message_found img' _ Hs' Hp), Hst.
  unfold binary_message_of at 1. rewrite <- app_assoc, <- Hlen.
  rewrite firstn_app, firstn_all, Nat.sub_diag, firstn_O, app_nil_r.
  apply decode_message_bits. exact Hm.
Qed.

(** C1 (as amended).  For every grid whose pixels are single values or
    3-tuples and every message [m] over code points at most 255 with
    [8*len(m)+16 <= bit_count], provided no occurrence of the terminator
    pattern starts in the payload before bit offset [8*len(m)],
    [hide_message] returns a grid and [extract_message] of that grid returns
    exactly [m]. *)
Theorem roundtrip_when_terminator_first (img : image) (m : pystr) :
  supported img ->
  Forall (fun c => (c <= 255)%N) m ->
  (8 * length m + 16 <= bit_count img)%nat ->
  (forall q, (q < 8 * length m)%nat -> ~ occurs_at (binary_message_of m) delimiter q) ->
  exists img', hide_message img m = Ok img' /\ extract_message img' = Ok m.
Proof. exact (roundtrip_core img m). Qed.

(** *** A sufficient condition: no character with code point 255

    A window of 15 consecutive one bits always covers one whole 8-bit group,
    so only a byte [0xFF] can take part in an early terminator. *)

Lemma format_08b_not_ones (c : N) :
  (c <= 254)%N -> format_08b (ord c) <> list_ascii_of_string "11111111".
Proof.
  intros Hc E.
  pose proof (char_of_bits_format_08b c ltac:(lia)) as H.
  rewrite E in H. vm_compute in H. injection H as H. lia.
Qed.

Lemma payload_head (m : pystr) :
  Forall (fun c => (c <= 254)%N) m ->
  binary_message_of m = delimiter \/
  exists l rest, binary_message_of m = l ++ rest /\ length l = 8%nat /\
                 l <> list_ascii_of_string "11111111".
Proof.
  intros Hm. destruct Hm as [|c m Hc Hm]; [left; reflexivity | right].
  exists (format_08b (ord c)), (binary_message_of m). repeat split.
  - unfold binary_message_of. simpl. rewrite <- app_assoc. reflexivity.
  - apply format_08b_length_byte. lia.
  - apply format_08b_not_ones. exact Hc.
Qed.

Lemma no_early_terminator (m : pystr) :
  Forall (fun c => (c <= 254)%N) m ->
  forall q, (q < 8 * length m)%nat -> ~ occurs_at (binary_message_of m) delimiter q.
Proof.
  induction 1 as [|c m Hc Hm IH]; intros q Hq; [simpl in Hq; lia|].
  assert (Hsplit : binary_message_of (c :: m) = format_08b (ord c) ++ binary_message_of m).
  { unfold binary_message_of. simpl. rewrite <- app_assoc. reflexivity. }
  rewrite Hsplit. clear Hsplit.
  pose proof (format_08b_length_byte c ltac:(lia)) as Hl.
  pose proof (format_08b_not_ones c Hc) as Hne.
  destruct (le_lt_dec 8 q) as [Hge | Hlt].
  - unfold occurs_at. rewrite skipn_app, Hl, skipn_all2, app_nil_l by lia.
    apply IH. cbn [length] in Hq. lia.
  - destruct (format_08b (ord c)) as [|b0 [|b1 [|b2 [|b3 [|b4 [|b5 [|b6 [|b7 [|]]]]]]]]];
      try discriminate Hl. clear Hl.
    unfold occurs_at. change (length delimiter) with 16%nat.
    destruct (payload_head m Hm) as [-> | (l & rest & -> & Hl & Hne')].
    + cbn [list_ascii_of_string] in Hne.
      do 8 (destruct q as [|q]; [intros E; vm_compute in E; congruence|]). lia.
    + destruct l as [|a0 [|a1 [|a2 [|a3 [|a4 [|a5 [|a6 [|a7 [|]]]]]]]]];
        try discriminate Hl. clear Hl.
      cbn [list_ascii_of_string] in Hne, Hne'.
      do 8 (destruct q as [|q];
            [intros E; cbn [skipn firstn app] in E; cbv [delimiter list_ascii_of_string] in E;
             congruence|]).
      lia.
Qed.

(** X1.  The round trip for messages over code points 0..254: on a grid of
    single values and 3-tuples with at least [8*len(m)+16] channel slots,
    decoding the encoded grid returns [m] whenever no character of [m] has
    code point 255 or more. *)
Corollary roundtrip_below_255 (img : image) (m : pystr) :
  supported img ->
  Forall (fun c => (c <= 254)%N) m ->
  (8 * length m + 16 <= bit_count img)%nat ->
  exists img', hide_message img m = Ok img' /\ extract_message img' = Ok m.
Proof.
  intros Hs Hm Hcap. apply roundtrip_core; try assumption.
  - eapply Forall_impl; [|exact Hm]. simpl. intros c Hc. lia.
  - apply no_early_terminator. exact Hm.
Qed.

Lemma grid_32_supported : supported grid_32.
Proof. unfold supported, grid_32, gray. cbn. repeat constructor. Qed.

Lemma roundtrip_when_terminator_first_witness :
  exists img', hide_message grid_32 [72; 105]%N = Ok img' /\
               extract_message img' = Ok [72; 105]%N.
Proof.
  apply (roundtrip_when_terminator_first grid_32 [72; 105]%N).
  - exact grid_32_supported.
  - repeat constructor; lia.
  - vm_compute. lia.
  - intros q Hq.
    do 16 (destruct q as [|q]; [intros E; vm_compute in E; congruence|]).
    cbn [length] in Hq. lia.
Defined.

(** C1 (as stated) fails twice over: the message "\xff\xfe" is itself the
    terminator pattern, so decoding finds the terminator at offset 0 and
    returns the empty message; and a well-formed 4-channel grid is not
    encoded at all. *)
Lemma roundtrip_counterexample :
  well_formed grid_32 /\
  Forall (fun c => (c <= 255)%N) [255; 254]%N /\
  (8 * length [255; 254]%N + 16 <= bit_count grid_32)%nat /\
  (img' <- hide_message grid_32 [255; 254]%N ;; extract_message img') = Ok [] /\
  well_formed grid_rgba /\
  (8 * length (@nil N) + 16 <= bit_count grid_rgba)%nat /\
  hide_message grid_rgba [] = Raise (UnpackError 4).
Proof.
  split; [exact grid_32_well_formed|].
  split; [repeat constructor; lia|].
  split; [vm_compute; lia|].
  split; [vm_compute; reflexivity|].
  split; [exact grid_rgba_well_formed|].
  split; [vm_compute; lia | vm_compute; reflexivity].
Qed.

(** ** Framing *)

Lemma put_lsb_land (x : Z) (c : ascii) : is_bit c -> Z.land (put_lsb x c) 1 = bit_val c.
Proof.
  intros Hc. rewrite land_1_odd, put_lsb_odd by assumption.
  destruct Hc as [-> | ->]; reflexivity.
Qed.

(** ** Decoding *)

Lemma decode_before_terminator (img : image) (p : nat) :
  supported img ->
  first_occurrence (lsb_stream img) delimiter p ->
  exists msg, extract_message img = Ok msg /\
              mapM char_of_bits (groups_of_8 (firstn p (lsb_stream img))) = Ok msg.
Proof.
  intros Hs Hp. rewrite (extract_message_found img p Hs Hp).
  destruct (groups_of_8_total (firstn p (lsb_stream img))) as (cs & E).
  - pose proof (Forall_slice is_bit (lsb_stream img) 0 p (lsb_stream_bits img)) as H.
    unfold slice in H. rewrite Nat.sub_0_r in H. exact H.
  - exists cs. split; exact E.
Qed.

Lemma grid_stray_bit_supported : supported grid_stray_bit.
Proof. unfold supported, grid_stray_bit, gray. cbn. repeat constructor. Qed.

Lemma grid_stray_bit_first : first_occurrence (lsb_stream grid_stray_bit) delimiter 1.
Proof. apply find_from_first. reflexivity. Qed.

(** ** Characters above code point 255 *)

(** C4 (as stated) fails: the message of the single code point 256 is encoded
    without any error; its 9-bit representation [100000000] starts the
    payload. *)
Lemma wide_char_counterexample :
  Exists (fun c => (255 < c)%N) [256%N] /\
  hide_message grid_example_1 [256%N] = Ok (gray [11; 20; 30; 40]).
Proof. split; [constructor; lia | reflexivity]. Qed.

(** C4 (as amended).  On every grid of single values and 3-tuples
    [hide_message] returns a grid for every message, whatever its code
    points; the grid carries the payload built by [format(ord(c), '08b')],
    in which a character above 255 takes more than 8 bits, so that the payload
    is longer than [8*len(m)+16]. *)
Theorem hide_message_accepts_wide_chars (img : image) (m : pystr) :
  supported img ->
  exists img', hide_message img m = Ok img' /\
    lsb_stream img' =
      firstn (bit_count img) (binary_message_of m) ++
      skipn (length (binary_message_of m)) (lsb_stream img) /\
    (Exists (fun c => (255 < c)%N) m ->
     (8 * length m + 16 < length (binary_message_of m))%nat).
Proof.
  intros Hs.
  destruct (hide_message_stream img m Hs) as (img' & E & _ & _ & _ & _ & Hch).
  exists img'. split; [exact E|]. split.
  - unfold lsb_stream at 1. rewrite Hch. apply embed_spec_lsb, binary_message_bits.
  - intros Hw. rewrite binary_message_length.
    pose proof (message_bits_length_wide m Hw). lia.
Qed.

Lemma grid_example_1_supported : supported grid_example_1.
Proof. unfold supported, grid_example_1, gray. cbn. repeat constructor. Qed.

Lemma hide_message_accepts_wide_chars_witness :
  exists img', hide_message grid_example_1 [256%N] = Ok img' /\
    lsb_stream img' =
      firstn (bit_count grid_example_1) (binary_message_of [256%N]) ++
      skipn (length (binary_message_of [256%N])) (lsb_stream grid_example_1) /\
    (Exists (fun c => (255 < c)%N) [256%N] ->
     (8 * length [256%N] + 16 < length (binary_message_of [256%N]))%nat).
Proof.
  apply (hide_message_accepts_wide_chars grid_example_1 [256%N]).
  exact grid_example_1_supported.
Defined.

(** ** Truncation *)

(** C5 (as stated) fails on a well-formed 4-channel grid: with the message
    "A" ([8*1+16 = 24 > 16] bit slots) encoding raises at the first pixel. *)
Lemma truncation_counterexample :
  well_formed grid_rgba /\
  (bit_count grid_rgba < 8 * length [65%N] + 16)%nat /\
  hide_message grid_rgba [65%N] = Raise (UnpackError 4).
Proof.
  split; [exact grid_rgba_well_formed|].
  split; [vm_compute; lia | reflexivity].
Qed.

(** C5 (as amended).  For every grid of single values and 3-tuples and every
    message with [8*len(m)+16 > bit_count], [hide_message] does not fail: the
    returned grid has the mode, size and pixel shapes of the input, its LSB
    stream is exactly the first [bit_count] bits of the payload, and the
    higher bits of every channel are unchanged. *)
Theorem hide_message_truncates (img : image) (m : pystr) :
  supported img ->
  (bit_count img < 8 * length m + 16)%nat ->
  exists img', hide_message img m = Ok img' /\
    mode img' = mode img /\ size img' = size img /\
    map shape (getdata img') = map shape (getdata img) /\
    lsb_stream img' = firstn (bit_count img) (binary_message_of m) /\
    map (fun x => Z.shiftr x 1) (channels img') = map (fun x => Z.shiftr x 1) (channels img).
Proof.
  intros Hs Hcap.
  destruct (hide_message_stream img m Hs) as (img' & E & Hmode & Hsize & Hsh & _ & Hch).
  exists img'. repeat split; try assumption.
  - unfold lsb_stream at 1. rewrite Hch, embed_spec_lsb by apply binary_message_bits.
    rewrite skipn_all2, app_nil_r; [reflexivity|].
    rewrite length_map. fold (bit_count img).
    rewrite binary_message_length. pose proof (message_bits_length_min m). lia.
  - rewrite Hch. apply embed_spec_upper, binary_message_bits.
Qed.

Lemma hide_message_truncates_witness :
  exists img', hide_message grid_example_1 [65%N] = Ok img' /\
    mode img' = mode grid_example_1 /\ size img' = size grid_example_1 /\
    map shape (getdata img') = map shape (getdata grid_example_1) /\
    lsb_stream img' = firstn (bit_count grid_example_1) (binary_message_of [65%N]) /\
    map (fun x => Z.shiftr x 1) (channels img') =
    map (fun x => Z.shiftr x 1) (channels grid_example_1).
Proof.
  apply (hide_message_truncates grid_example_1 [65%N]).
  - exact grid_example_1_supported.
  - vm_compute. lia.
Defined.

(** ** Grids without a message *)

(** C6 (as stated) fails on a well-formed 4-channel grid of all-zero
    channels: its LSB stream has no terminator, yet decoding raises. *)
Lemma not_found_counterexample :
  well_formed grid_rgba /\
  Forall (fun v => Z.even v = true) (channels grid_rgba) /\
  (forall q, ~ occurs_at (lsb_stream grid_rgba) delimiter q) /\
  extract_message grid_rgba = Raise (UnpackError 4).
Proof.
  assert (Hev : Forall (fun v => Z.even v = true) (channels grid_rgba))
    by (vm_compute; repeat constructor).
  split; [exact grid_rgba_well_formed|].
  split; [exact Hev|].
  split; [apply all_even_no_occurrence; exact Hev | reflexivity].
Qed.

(** C6 (as amended).  For every grid of single values and 3-tuples whose LSB
    stream contains no occurrence of the terminator, in particular when all
    channel values are even, [extract_message] returns the string
    "No message found" and raises nothing. *)
Theorem extract_message_not_found (img : image) :
  supported img ->
  (forall q, ~ occurs_at (lsb_stream img) delimiter q) \/
  Forall (fun v => Z.even v = true) (channels img) ->
  extract_message img = Ok No_message_found.
Proof.
  intros Hs [Hn | Hev].
  - apply extract_message_absent; assumption.
  - apply extract_message_absent; [assumption|].
    apply all_even_no_occurrence. exact Hev.
Qed.

Lemma grid_example_2_supported : supported grid_example_2.
Proof. unfold supported, grid_example_2, gray. cbn. repeat constructor. Qed.

Lemma extract_message_not_found_witness :
  extract_message grid_example_2 = Ok No_message_found.
Proof.
  apply (extract_message_not_found grid_example_2).
  - exact grid_example_2_supported.
  - right. vm_compute. repeat constructor.
Defined.

(** ** Leftover bits *)

(** C7 (as stated) fails: in the 17-pixel grid with LSBs [0], fifteen [1]s,
    [0] the terminator starts at offset 1; there is no complete group before
    it, yet the one leftover bit is decoded to the character [chr(0)]. *)
Lemma trailing_group_counterexample :
  supported grid_stray_bit /\
  first_occurrence (lsb_stream grid_stray_bit) delimiter 1 /\
  (1 mod 8 <> 0)%nat /\
  mapM char_of_bits (complete_groups (firstn 1 (lsb_stream grid_stray_bit))) = Ok [] /\
  extract_message grid_stray_bit = Ok [0%N].
Proof.
  split; [exact grid_stray_bit_supported|].
  split; [exact grid_stray_bit_first|].
  split; [vm_compute; discriminate|].
  split; reflexivity.
Qed.

(** C7 (as amended).  When the number [p] of bits before the terminator is
    not a multiple of 8, [extract_message] returns the characters of the
    complete 8-bit groups followed by one more character: the leftover
    [p mod 8] bits read as an unsigned binary number. *)
Theorem extract_message_partial_group (img : image) (p : nat) :
  supported img ->
  first_occurrence (lsb_stream img) delimiter p ->
  (p mod 8 <> 0)%nat ->
  exists cs c,
    extract_message img = Ok (cs ++ [c]) /\
    mapM char_of_bits (complete_groups (firstn p (lsb_stream img))) = Ok cs /\
    char_of_bits (skipn (8 * (p / 8)) (firstn p (lsb_stream img))) = Ok c /\
    length cs = (p / 8)%nat.
Proof.
  intros Hs Hp Hr.
  pose proof (first_occurrence_length _ _ Hp) as Hlen.
  destruct (decode_before_terminator img p Hs Hp) as (msg & E & Hmsg).
  rewrite E. rewrite groups_of_8_partial, mapM_app in Hmsg by (rewrite Hlen; exact Hr).
  rewrite Hlen in Hmsg.
  destruct (mapM char_of_bits (complete_groups (firstn p (lsb_stream img))))
    as [cs|e] eqn:Ecs; [|discriminate].
  cbn [bind mapM] in Hmsg.
  destruct (char_of_bits (skipn (8 * (p / 8)) (firstn p (lsb_stream img))))
    as [c|e] eqn:Ec; [|discriminate].
  cbn [bind] in Hmsg. injection Hmsg as <-.
  exists cs, c. repeat split.
  apply mapM_length in Ecs. rewrite Ecs. unfold complete_groups.
  rewrite length_map, length_seq, Hlen. reflexivity.
Qed.

Lemma extract_message_partial_group_witness :
  exists cs c,
    extract_message grid_stray_bit = Ok (cs ++ [c]) /\
    mapM char_of_bits (complete_groups (firstn 1 (lsb_stream grid_stray_bit))) = Ok cs /\
    char_of_bits (skipn (8 * (1 / 8)) (firstn 1 (lsb_stream grid_stray_bit))) = Ok c /\
    length cs = (1 / 8)%nat.
Proof.
  apply (extract_message_partial_group grid_stray_bit 1).
  - exact grid_stray_bit_supported.
  - exact grid_stray_bit_first.
  - vm_compute. discriminate.
Defined.

(** ** The worked examples *)

(** C8.  Example 1: encoding "A" into the grid [10, 20, 30, 40] writes the
    first 4 bits [0,1,0,0] of the 24-bit payload and returns
    [10, 21, 30, 40]. *)
Theorem example_1 :
  bit_count grid_example_1 = 4%nat /\
  length (binary_message_of [65%N]) = 24%nat /\
  firstn 4 (binary_message_of [65%N]) = list_ascii_of_string "0100" /\
  hide_message grid_example_1 [65%N] = Ok (gray [10; 21; 30; 40]) /\
  lsb_stream (gray [10; 21; 30; 40]) = list_ascii_of_string "0100".
Proof. repeat split. Qed.

(** C9.  Example 2: encoding "Hi" (32 payload bits) into 12 pixels of value
    100 writes the first 12 payload bits only; the resulting LSB stream
    contains no terminator and decoding it returns "No message found". *)
Theorem example_2 :
  bit_count grid_example_2 = 12%nat /\
  length (binary_message_of [72; 105]%N) = 32%nat /\
  exists img',
    hide_message grid_example_2 [72; 105]%N = Ok img' /\
    lsb_stream img' = firstn 12 (binary_message_of [72; 105]%N) /\
    (forall q, ~ occurs_at (lsb_stream img') delimiter q) /\
    extract_message img' = Ok No_message_found.
Proof.
  split; [reflexivity|]. split; [reflexivity|].
  exists (gray [100; 101; 100; 100; 101; 100; 100; 100; 100; 101; 101; 100]).
  split; [reflexivity|]. split; [reflexivity|].
  split; [apply find_from_none; reflexivity | reflexivity].
Qed.

(** ** Tuples that are not r,g,b *)

Lemma extract_message_total (img : image) :
  supported img -> exists msg, extract_message img = Ok msg.
Proof.
  intros Hs. destruct (find_from (lsb_stream img) delimiter 0) as [p|] eqn:E.
  - apply find_from_first in E.
    destruct (decode_before_terminator img p Hs E) as (msg & Hmsg & _). eauto.
  - exists No_message_found. apply extract_message_absent; [exact Hs|].
    apply find_from_none. exact E.
Qed.

(** C10.  On a grid containing a tuple pixel whose channel count is not 3,
    both [hide_message] and [extract_message] raise at the [r, g, b = pixel]
    destructuring, so that no grid and no message is returned; on a grid of
    single values and 3-tuples only, both return. *)
Theorem non_rgb_tuple_raises (img : image) (m : pystr) :
  ((exists cs, In (PTuple cs) (getdata img) /\ length cs <> 3%nat) ->
   (exists k, k <> 3%nat /\ hide_message img m = Raise (UnpackError k)) /\
   (exists k, k <> 3%nat /\ extract_message img = Raise (UnpackError k))) /\
  (supported img ->
   (exists img', hide_message img m = Ok img') /\
   (exists msg, extract_message img = Ok msg)).
Proof.
  split.
  - intros Hbad. apply not_supported_Exists in Hbad. split.
    + destruct (hide_loop_unpack (binary_message_of m) (binary_message_bits m)
                  (getdata img) Hbad [] 0%nat) as (k & Hk & E).
      exists k. split; [exact Hk|]. unfold hide_message. rewrite E. reflexivity.
    + destruct (extract_loop_unpack (getdata img) Hbad []) as (k & Hk & E).
      exists k. split; [exact Hk|]. unfold extract_message. rewrite E. reflexivity.
  - intros Hs. split.
    + destruct (hide_message_stream img m Hs) as (img' & E & _). eauto.
    + apply extract_message_total. exact Hs.
Qed.

Lemma non_rgb_tuple_raises_witness :
  (exists k, k <> 3%nat /\ hide_message grid_rgba [65%N] = Raise (UnpackError k)) /\
  (exists k, k <> 3%nat /\ extract_message grid_rgba = Raise (UnpackError k)).
Proof.
  apply (proj1 (non_rgb_tuple_raises grid_rgba [65%N])).
  exists [0; 0; 0; 0]. split; [left; reflexivity | simpl; lia].
Defined.

(** * Further properties of [hide_message] and [extract_message] *)

Lemma gray_supported (vs : list Z) : supported (gray vs).
Proof.
  unfold supported, gray. cbn [getdata]. apply Forall_forall.
  intros p Hp. apply in_map_iff in Hp as (v & <- & _). exact I.
Qed.

Lemma roundtrip_below_255_witness :
  exists img', hide_message grid_32 [72; 105]%N = Ok img' /\
               extract_message img' = Ok [72; 105]%N.
Proof.
  apply (roundtrip_below_255 grid_32 [72; 105]%N).
  - exact grid_32_supported.
  - repeat constructor; lia.
  - vm_compute. lia.
Defined.

(** ** How far a channel moves *)

Lemma half_and_parity (a b : Z) :
  Z.shiftr a 1 = Z.shiftr b 1 -> Z.odd a = Z.odd b -> a = b.
Proof.
  intros Hh Hp. rewrite !Z.shiftr_div_pow2 in Hh by lia. change (2 ^ 1) with 2 in Hh.
  pose proof (Z.div_mod a 2 ltac:(lia)) as Ea.
  pose proof (Z.div_mod b 2 ltac:(lia)) as Eb.
  rewrite (Zmod_odd a) in Ea. rewrite (Zmod_odd b) in Eb.
  rewrite Hp, Hh in Ea. lia.
Qed.

Lemma put_lsb_near (x : Z) (c : ascii) : is_bit c -> -1 <= put_lsb x c - x <= 1.
Proof.
  intros Hc. pose proof (put_lsb_upper x c Hc) as Hu.
  rewrite !Z.shiftr_div_pow2 in Hu by lia. change (2 ^ 1) with 2 in Hu.
  pose proof (Z.div_mod (put_lsb x c) 2 ltac:(lia)) as E1.
  pose proof (Z.mod_pos_bound (put_lsb x c) 2 ltac:(lia)) as B1.
  pose proof (Z.div_mod x 2 ltac:(lia)) as E2.
  pose proof (Z.mod_pos_bound x 2 ltac:(lia)) as B2.
  lia.
Qed.

Lemma put_lsb_twice (x : Z) (c d : ascii) :
  is_bit c -> is_bit d -> put_lsb (put_lsb x c) d = put_lsb x d.
Proof.
  intros Hc Hd. apply half_and_parity.
  - rewrite !put_lsb_upper by assumption. reflexivity.
  - rewrite !put_lsb_odd by assumption. reflexivity.
Qed.

Lemma hide_message_channels (img img' : image) (m : pystr) :
  hide_message img m = Ok img' ->
  supported img /\
  mode img' = mode img /\ size img' = size img /\
  map shape (getdata img') = map shape (getdata img) /\
  channels img' = embed_spec (binary_message_of m) (channels img).
Proof.
  intros H. pose proof (hide_message_Ok_supported _ _ _ H) as Hs.
  destruct (hide_message_stream img m Hs) as (img'' & E & Hmode & Hsize & Hsh & _ & Hch).
  rewrite H in E. injection E as <-. repeat split; assumption.
Qed.

(** X3.  Encoding moves no channel value by more than 1: every channel of
    the grid returned by [hide_message] differs from the channel at the same
    scan position of the input by -1, 0 or 1. *)
Theorem hide_message_changes_by_one (img img' : image) (m : pystr) (i : nat) (x x' : Z) :
  hide_message img m = Ok img' ->
  nth_error (channels img) i = Some x ->
  nth_error (channels img') i = Some x' ->
  -1 <= x' - x <= 1.
Proof.
  intros H Hx Hx'.
  destruct (hide_message_channels _ _ _ H) as (_ & _ & _ & _ & Hch).
  rewrite Hch, (embed_spec_nth _ _ _ _ Hx) in Hx'. injection Hx' as <-.
  destruct (nth_error (binary_message_of m) i) as [c|] eqn:E; [|lia].
  apply put_lsb_near.
  pose proof (binary_message_bits m) as Hb. rewrite Forall_forall in Hb.
  apply Hb. eapply nth_error_In; eauto.
Qed.

Lemma hide_message_changes_by_one_witness : -1 <= 21 - 20 <= 1.
Proof.
  apply (hide_message_changes_by_one grid_example_1 (gray [10; 21; 30; 40]) [65%N] 1 20 21);
    reflexivity.
Defined.

(** ** The grid invariant *)

Lemma embed_spec_range (bits : str) (xs : list Z) :
  Forall is_bit bits -> Forall (fun v => 0 <= v <= 255) xs ->
  Forall (fun v => 0 <= v <= 255) (embed_spec bits xs).
Proof.
  intros Hb. revert xs. induction Hb as [|c bits Hc _ IH]; intros xs Hxs.
  - rewrite embed_spec_nil. exact Hxs.
  - destruct xs as [|x xs]; simpl; [constructor|].
    inversion Hxs as [|? ? Hx Hxs']; subst.
    constructor; [apply put_lsb_range; assumption | apply IH; assumption].
Qed.

Lemma in_same_shape (ps qs : list pixel) (p : pixel) :
  map shape ps = map shape qs -> In p ps -> exists q, In q qs /\ shape q = shape p.
Proof.
  intros Hsh Hp. apply (in_map shape) in Hp. rewrite Hsh in Hp.
  apply in_map_iff in Hp as (q & Hq & Hin). eauto.
Qed.

(** X4.  [hide_message] keeps the grid invariant: if the input has one entry
    per pixel of its geometry, pixels of one shape with at least one channel
    and 8-bit channel values, so has the grid it returns (the values handed
    to [putdata] need no clipping). *)
Theorem hide_message_well_formed (img img' : image) (m : pystr) :
  well_formed img -> hide_message img m = Ok img' -> well_formed img'.
Proof.
  intros (Hlen & Huni & Hk & Hrange) H.
  destruct (hide_message_channels _ _ _ H) as (_ & _ & Hsize & Hsh & Hch).
  unfold well_formed. rewrite Hsize, Hch. split; [|split; [|split]].
  - rewrite <- Hlen. rewrite <- (length_map shape), Hsh, length_map. reflexivity.
  - intros p q Hp Hq.
    destruct (in_same_shape _ _ p Hsh Hp) as (p0 & Hp0 & <-).
    destruct (in_same_shape _ _ q Hsh Hq) as (q0 & Hq0 & <-).
    apply Huni; assumption.
  - intros cs Hcs.
    destruct (in_same_shape _ _ _ Hsh Hcs) as (q0 & Hq0 & Hshape).
    destruct q0 as [v | ds]; simpl in Hshape; [discriminate|].
    injection Hshape as <-. apply Hk. exact Hq0.
  - apply embed_spec_range; [apply binary_message_bits | exact Hrange].
Qed.

Lemma hide_message_well_formed_witness :
  exists img', hide_message grid_32 [72; 105]%N = Ok img' /\ well_formed img'.
Proof.
  destruct (hide_message_stream grid_32 [72; 105]%N grid_32_supported) as (img' & E & _).
  exists img'. split; [exact E|].
  exact (hide_message_well_formed grid_32 img' [72; 105]%N grid_32_well_formed E).
Defined.

(** ** Encoding twice *)

Lemma app_inv_same_length {A : Type} (l1 l2 r1 r2 : list A) :
  length l1 = length l2 -> l1 ++ r1 = l2 ++ r2 -> l1 = l2 /\ r1 = r2.
Proof.
  revert l2. induction l1 as [|a l1 IH]; intros [|b l2] Hlen H; simpl in *;
    try discriminate.
  - auto.
  - injection H as -> H. injection Hlen as Hlen.
    destruct (IH l2 Hlen H) as [-> ->]. auto.
Qed.

(** A pixel list is determined by its shapes and its channels. *)
Lemma pixels_eq (ps qs : list pixel) :
  map shape ps = map shape qs ->
  flat_map channels_of ps = flat_map channels_of qs -> ps = qs.
Proof.
  revert qs. induction ps as [|p ps IH]; intros [|q qs] Hsh Hch; simpl in *;
    try discriminate; [reflexivity|].
  injection Hsh as Hp Hsh.
  destruct p as [v | cs], q as [w | ds]; simpl in *; try discriminate.
  - injection Hch as -> Hch. f_equal. auto.
  - injection Hp as Hlen.
    destruct (app_inv_same_length _ _ _ _ Hlen Hch) as [-> Hrest].
    f_equal. auto.
Qed.

Lemma embed_spec_twice (b1 b2 : str) (xs : list Z) :
  Forall is_bit b1 -> Forall is_bit b2 -> (length b1 <= length b2)%nat ->
  embed_spec b2 (embed_spec b1 xs) = embed_spec b2 xs.
Proof.
  intros H1. revert b2 xs. induction H1 as [|c b1 Hc _ IH]; intros b2 xs H2 Hlen.
  - rewrite embed_spec_nil. reflexivity.
  - destruct b2 as [|d b2]; [simpl in Hlen; lia|].
    inversion H2 as [|? ? Hd H2']; subst.
    destruct xs as [|x xs]; simpl; [reflexivity|].
    rewrite put_lsb_twice by assumption.
    rewrite IH; [reflexivity | assumption | simpl in Hlen; lia].
Qed.

(** X2.  A later payload overwrites an earlier one: on a grid of single
    values and 3-tuples, encoding [m1] and then [m2] into the result gives
    exactly the grid of encoding [m2] alone, whenever the payload of [m1] is
    no longer than that of [m2]; in particular encoding the same message
    twice changes nothing the second time. *)
Theorem hide_message_overwrites (img : image) (m1 m2 : pystr) :
  supported img ->
  (length (binary_message_of m1) <= length (binary_message_of m2))%nat ->
  exists img1 img2,
    hide_message img m1 = Ok img1 /\
    hide_message img1 m2 = Ok img2 /\
    hide_message img m2 = Ok img2.
Proof.
  intros Hs Hlen.
  destruct (hide_message_spec img m1 Hs) as (ps1 & E1 & Hch1 & Hsh1).
  assert (Hs1 : supported (mkImage (mode img) (size img) ps1)).
  { unfold supported. cbn [getdata]. eapply shape_supported; eauto. }
  destruct (hide_message_spec _ m2 Hs1) as (ps12 & E12 & Hch12 & Hsh12).
  destruct (hide_message_spec img m2 Hs) as (ps2 & E2 & Hch2 & Hsh2).
  cbn [mode size getdata] in *. unfold channels in Hch12. cbn [getdata] in Hch12.
  assert (Heq : ps12 = ps2).
  { apply pixels_eq; [congruence|].
    rewrite Hch12, Hch1, Hch2.
    apply embed_spec_twice; [apply binary_message_bits .. | exact Hlen]. }
  subst ps12. eauto.
Qed.

Lemma hide_message_overwrites_witness :
  exists img1 img2,
    hide_message grid_32 [72%N] = Ok img1 /\
    hide_message img1 [72; 105]%N = Ok img2 /\
    hide_message grid_32 [72; 105]%N = Ok img2.
Proof.
  apply (hide_message_overwrites grid_32 [72%N] [72; 105]%N).
  - exact grid_32_supported.
  - vm_compute. lia.
Defined.

(** ** What the decoder can return *)

Lemma groups_of_8_wf (bits : str) :
  Forall is_bit bits ->
  Forall (fun g => Forall is_bit g /\ g <> [] /\ (length g <= 8)%nat) (groups_of_8 bits).
Proof.
  intros Hb. unfold groups_of_8. apply Forall_forall. intros g Hg.
  apply in_map_iff in Hg as (i & <- & Hi). apply range0_lt in Hi.
  split; [apply Forall_slice; exact Hb|]. split.
  - intros E. apply (f_equal (@length ascii)) in E. unfold slice in E.
    rewrite length_firstn, length_skipn in E. simpl in E. lia.
  - unfold slice. rewrite length_firstn. lia.
Qed.

Lemma mapM_Forall {A B : Type} (f : A -> result B) (P : B -> Prop) (l : list A) :
  Forall (fun a => forall b, f a = Ok b -> P b) l ->
  forall bs, mapM f l = Ok bs -> Forall P bs.
Proof.
  induction 1 as [|a l Ha _ IH]; simpl; intros bs H.
  - injection H as <-. constructor.
  - apply bind_Ok_inv in H as (b & Hb & H).
    apply bind_Ok_inv in H as (bs' & Hbs & H). injection H as <-.
    constructor; [apply Ha; exact Hb | apply IH; exact Hbs].
Qed.

Lemma decoded_bytes (bits : str) (msg : pystr) :
  Forall is_bit bits ->
  mapM char_of_bits (groups_of_8 bits) = Ok msg ->
  Forall (fun c => (c < 256)%N) msg.
Proof.
  intros Hb. apply mapM_Forall.
  eapply Forall_impl; [|apply groups_of_8_wf; exact Hb].
  intros g (Hg & Hne & Hlen) c Hc.
  destruct (char_of_bits_total g Hg Hne Hlen) as (c' & E & Hc').
  rewrite E in Hc. injection Hc as <-. exact Hc'.
Qed.

Lemma firstn_bits (n : nat) (s : str) : Forall is_bit s -> Forall is_bit (firstn n s).
Proof.
  intros H. pose proof (Forall_slice is_bit s 0 n H) as H'.
  unfold slice in H'. rewrite Nat.sub_0_r in H'. exact H'.
Qed.

Lemma No_message_found_bytes : Forall (fun c => (c < 256)%N) No_message_found.
Proof. apply Forall_forall. intros c Hc. vm_compute in Hc. intuition (subst; lia). Qed.

Lemma extract_message_cases (img : image) (msg : pystr) :
  extract_message img = Ok msg ->
  supported img /\
  ((msg = No_message_found /\ forall q, ~ occurs_at (lsb_stream img) delimiter q) \/
   exists p, first_occurrence (lsb_stream img) delimiter p /\
             mapM char_of_bits (groups_of_8 (firstn p (lsb_stream img))) = Ok msg).
Proof.
  intros H. pose proof (extract_message_Ok_supported img msg H) as Hs.
  split; [exact Hs|].
  destruct (find_from (lsb_stream img) delimiter 0) as [p|] eqn:E.
  - right. exists p. apply find_from_first in E. split; [exact E|].
    rewrite <- (extract_message_found img p Hs E). exact H.
  - left. pose proof (find_from_none _ _ E) as Hn.
    rewrite (extract_message_absent img Hs Hn) in H. injection H as <-. auto.
Qed.

(** X5.  Whatever [extract_message] returns consists of characters with
    code points below 256 only: each character comes from at most 8 bits. *)
Theorem extract_message_bytes (img : image) (msg : pystr) :
  extract_message img = Ok msg -> Forall (fun c => (c < 256)%N) msg.
Proof.
  intros H. destruct (extract_message_cases img msg H) as (_ & [[-> _] | (p & _ & Hd)]).
  - exact No_message_found_bytes.
  - eapply decoded_bytes; [|exact Hd]. apply firstn_bits, lsb_stream_bits.
Qed.

Lemma extract_message_bytes_witness : Forall (fun c => (c < 256)%N) [0%N].
Proof.
  apply (extract_message_bytes grid_stray_bit [0%N]). reflexivity.
Defined.

(** X6.  A message containing a character above code point 255 never
    survives the round trip: whatever grid [hide_message] returns for it,
    [extract_message] of that grid does not return the message. *)
Theorem wide_message_not_recovered (img img' : image) (m : pystr) :
  Exists (fun c => (255 < c)%N) m ->
  hide_message img m = Ok img' ->
  extract_message img' <> Ok m.
Proof.
  intros Hw _ H. apply extract_message_cases in H as (_ & H).
  assert (Hb : Forall (fun c => (c < 256)%N) m).
  { destruct H as [[-> _] | (p & _ & Hd)].
    - exact No_message_found_bytes.
    - eapply decoded_bytes; [|exact Hd]. apply firstn_bits, lsb_stream_bits. }
  apply Exists_exists in Hw as (c & Hc & Hgt).
  rewrite Forall_forall in Hb. specialize (Hb c Hc). lia.
Qed.

Lemma wide_message_not_recovered_witness :
  extract_message (gray [11; 20; 30; 40]) <> Ok [256%N].
Proof.
  apply (wide_message_not_recovered grid_example_1 (gray [11; 20; 30; 40]) [256%N]).
  - constructor. lia.
  - reflexivity.
Defined.

(** X7.  A grid of single values and 3-tuples with fewer than 16 channel
    slots cannot hold a terminator: [extract_message] returns
    "No message found" on it, whatever was encoded into it. *)
Theorem extract_message_short_grid (img : image) :
  supported img -> (bit_count img < 16)%nat ->
  extract_message img = Ok No_message_found.
Proof.
  intros Hs Hlt. apply extract_message_absent; [exact Hs|].
  intros q Hq. apply occurs_at_bound in Hq as [Hq | Hq]; [|discriminate].
  unfold lsb_stream in Hq. rewrite length_map in Hq. fold (bit_count img) in Hq.
  change (length delimiter) with 16%nat in Hq. lia.
Qed.

Lemma extract_message_short_grid_witness :
  extract_message (gray [10; 21; 30; 40]) = Ok No_message_found.
Proof.
  apply (extract_message_short_grid (gray [10; 21; 30; 40])).
  - apply gray_supported.
  - vm_compute. lia.
Defined.

(** ** What the decoder reads *)

(** X8.  [extract_message] depends on the sequence of channel LSBs only: two
    grids of single values and 3-tuples with the same LSB stream give the same
    result, whatever their higher bits, mode, size or grouping of channels
    into pixels. *)
Theorem extract_message_lsb_only (a b : image) :
  supported a -> supported b -> lsb_stream a = lsb_stream b ->
  extract_message a = extract_message b.
Proof.
  intros Ha Hb E.
  destruct (find_from (lsb_stream a) delimiter 0) as [p|] eqn:F.
  - apply find_from_first in F.
    rewrite (extract_message_found a p Ha F).
    rewrite E in F. rewrite (extract_message_found b p Hb F), E. reflexivity.
  - pose proof (find_from_none _ _ F) as Hn.
    rewrite (extract_message_absent a Ha Hn).
    rewrite E in Hn. rewrite (extract_message_absent b Hb Hn). reflexivity.
Qed.

Lemma extract_message_lsb_only_witness :
  extract_message (gray [0; 1; 1; 0; 1; 1]) =
  extract_message (mkImage "RGB" (2%nat, 1%nat) [PTuple [254; 255; 3]; PTuple [8; 9; 7]]).
Proof.
  apply (extract_message_lsb_only (gray [0; 1; 1; 0; 1; 1])
           (mkImage "RGB" (2%nat, 1%nat) [PTuple [254; 255; 3]; PTuple [8; 9; 7]])).
  - apply gray_supported.
  - unfold supported. cbn. repeat constructor.
  - reflexivity.
Defined.

Lemma window_of_prefix (s t : str) (q k n : nat) :
  (q + k <= n)%nat -> firstn n s = firstn n t ->
  firstn k (skipn q s) = firstn k (skipn q t).
Proof.
  intros Hle E.
  assert (H : forall u : str, firstn k (skipn q u) = firstn k (skipn q (firstn n u))).
  { intros u. rewrite <- (firstn_skipn n u) at 1.
    destruct (le_lt_dec n (length u)) as [Hn | Hn].
    - apply firstn_skipn_app. rewrite length_firstn. lia.
    - rewrite (skipn_all2 u) by lia. rewrite app_nil_r. reflexivity. }
  rewrite (H s), (H t), E. reflexivity.
Qed.

Lemma firstn_of_prefix (s t : str) (p n : nat) :
  (p <= n)%nat -> firstn n s = firstn n t -> firstn p s = firstn p t.
Proof.
  intros Hle E. pose proof (window_of_prefix s t 0 p n ltac:(lia) E) as H.
  exact H.
Qed.

Lemma first_occurrence_prefix (s t : str) (p : nat) :
  first_occurrence s delimiter p ->
  firstn (p + 16) t = firstn (p + 16) s ->
  first_occurrence t delimiter p.
Proof.
  intros [Ho Hn] E. unfold first_occurrence, occurs_at in *.
  change (length delimiter) with 16%nat in *. split.
  - rewrite (window_of_prefix t s p 16 (p + 16)) by (auto; lia). exact Ho.
  - intros q Hq. rewrite (window_of_prefix t s q 16 (p + 16)) by (auto; lia).
    apply Hn. exact Hq.
Qed.

(** X9.  Nothing after the first terminator is read: if the LSB stream of a
    grid has its first terminator at offset [p], every grid (of single values
    and 3-tuples) whose LSB stream agrees with it on the first [p+16]
    positions decodes to the same result, however many pixels follow and
    whatever they hold. *)
Theorem extract_message_stops_at_terminator (a b : image) (p : nat) :
  supported a -> supported b ->
  first_occurrence (lsb_stream a) delimiter p ->
  firstn (p + 16) (lsb_stream b) = firstn (p + 16) (lsb_stream a) ->
  extract_message b = extract_message a.
Proof.
  intros Ha Hb Hp E.
  pose proof (first_occurrence_prefix _ _ _ Hp E) as Hp'.
  rewrite (extract_message_found a p Ha Hp), (extract_message_found b p Hb Hp').
  rewrite (firstn_of_prefix _ _ p (p + 16) ltac:(lia) E). reflexivity.
Qed.

Lemma extract_message_stops_at_terminator_witness :
  extract_message (gray (0 :: repeat 1 15 ++ [0; 1; 1; 1])) = extract_message grid_stray_bit.
Proof.
  apply (extract_message_stops_at_terminator
           grid_stray_bit (gray (0 :: repeat 1 15 ++ [0; 1; 1; 1])) 1).
  - exact grid_stray_bit_supported.
  - apply gray_supported.
  - exact grid_stray_bit_first.
  - reflexivity.
Defined.

(** ** Grids whose LSB stream begins with a payload *)

Lemma extract_payload_prefix (g : image) (m : pystr) (tail : str) :
  supported g ->
  Forall (fun c => (c <= 255)%N) m ->
  (forall q, (q < 8 * length m)%nat -> ~ occurs_at (binary_message_of m) delimiter q) ->
  lsb_stream g = binary_message_of m ++ tail ->
  extract_message g = Ok m.
Proof.
  intros Hs Hm Hfirst Hst.
  pose proof (message_bits_length m Hm) as Hlen.
  pose proof (binary_message_length_bytes m Hm) as Hblen.
  assert (Hp : first_occurrence (lsb_stream g) delimiter (8 * length m)).
  { rewrite Hst. split.
    - unfold occurs_at, binary_message_of. rewrite <- app_assoc, <- Hlen.
      rewrite skipn_app, skipn_all, Nat.sub_diag. reflexivity.
    - intros q Hq Ho. apply (Hfirst q Hq). unfold occurs_at in *.
      rewrite firstn_skipn_app in Ho; [exact Ho|].
      rewrite Hblen. change (length delimiter) with 16%nat. lia. }
  rewrite (extract_message_found g _ Hs Hp), Hst.
  unfold binary_message_of at 1. rewrite <- app_assoc, <- Hlen.
  rewrite firstn_app, firstn_all, Nat.sub_diag, firstn_O, app_nil_r.
  apply decode_message_bits. exact Hm.
Qed.

Lemma binary_message_app (m1 m2 : pystr) :
  binary_message_of (m1 ++ m2) =
  concat (map (fun c => format_08b (ord c)) m1) ++ binary_message_of m2.
Proof.
  unfold binary_message_of. rewrite map_app, concat_app, <- app_assoc. reflexivity.
Qed.

(** X10.  A message is cut at its first characters 255, 254: the two bytes
    are the terminator pattern, so for [m = m1 + chr(255) + chr(254) + m2]
    with [m1] over code points 0..254 and room for the payload, decoding the
    encoded grid returns [m1]; the rest of the message is lost without an
    error. *)
Theorem message_cut_at_terminator_bytes (img : image) (m1 m2 : pystr) :
  supported img ->
  Forall (fun c => (c <= 254)%N) m1 ->
  (length (binary_message_of (m1 ++ 255 :: 254 :: m2)%N) <= bit_count img)%nat ->
  exists img', hide_message img (m1 ++ 255 :: 254 :: m2)%N = Ok img' /\
               extract_message img' = Ok m1.
Proof.
  intros Hs Hm1 Hcap.
  destruct (hide_message_fits img _ Hs Hcap) as (img' & E & Hs' & Hst).
  exists img'. split; [exact E|].
  remember (skipn (length (binary_message_of (m1 ++ 255 :: 254 :: m2)%N)) (lsb_stream img))
    as tail eqn:Htail. clear Htail.
  apply (extract_payload_prefix img' m1 (binary_message_of m2 ++ tail)).
  - exact Hs'.
  - eapply Forall_impl; [|exact Hm1]. simpl. intros c Hc. lia.
  - apply no_early_terminator. exact Hm1.
  - rewrite Hst, binary_message_app.
    change (binary_message_of (255 :: 254 :: m2)%N)
      with (delimiter ++ binary_message_of m2).
    change (binary_message_of m1)
      with (concat (map (fun c => format_08b (ord c)) m1) ++ delimiter).
    rewrite <- !app_assoc. reflexivity.
Qed.

Lemma message_cut_at_terminator_bytes_witness :
  exists img', hide_message (gray (repeat 100 48)) ([72] ++ [255; 254; 105])%N = Ok img' /\
               extract_message img' = Ok [72%N].
Proof.
  apply (message_cut_at_terminator_bytes (gray (repeat 100 48)) [72%N] [105%N]).
  - apply gray_supported.
  - repeat constructor; lia.
  - vm_compute. lia.
Defined.

Lemma No_message_found_below_255 : Forall (fun c => (c <= 254)%N) No_message_found.
Proof. apply Forall_forall. intros c Hc. vm_compute in Hc. intuition (subst; lia). Qed.

(** X11.  The return value "No message found" does not tell a grid without
    a message from one that carries that text: on every grid of single values
    and 3-tuples with at least 144 channel slots, encoding the message
    "No message found" and decoding the result returns "No message found",
    although the terminator is present at bit offset 128. *)
Theorem not_found_text_is_ambiguous (img : image) :
  supported img -> (144 <= bit_count img)%nat ->
  exists img', hide_message img No_message_found = Ok img' /\
               extract_message img' = Ok No_message_found /\
               occurs_at (lsb_stream img') delimiter 128.
Proof.
  intros Hs Hcap.
  destruct (hide_message_fits img No_message_found Hs Hcap) as (img' & E & Hs' & Hst).
  exists img'. split; [exact E|]. split.
  - eapply extract_payload_prefix; [exact Hs' | | | exact Hst].
    + eapply Forall_impl; [|exact No_message_found_below_255]. simpl. intros c Hc. lia.
    + apply no_early_terminator. exact No_message_found_below_255.
  - rewrite Hst. unfold occurs_at.
    rewrite firstn_skipn_app by (vm_compute; lia). reflexivity.
Qed.

Lemma not_found_text_is_ambiguous_witness :
  exists img', hide_message (gray (repeat 100 144)) No_message_found = Ok img' /\
               extract_message img' = Ok No_message_found /\
               occurs_at (lsb_stream img') delimiter 128.
Proof.
  apply (not_found_text_is_ambiguous (gray (repeat 100 144))).
  - apply gray_supported.
  - vm_compute. lia.
Defined.

(** ** The capacity condition is necessary *)

Lemma int2_digits_lower (s : str) :
  forall acc n, 0 <= acc -> int2_digits acc s = Ok n -> acc <= n.
Proof.
  induction s as [|c s IH]; intros acc n Hacc H; cbn -[Z.mul Z.add] in H.
  - injection H as <-. lia.
  - destruct (Ascii.eqb c "0").
    + apply IH in H; lia.
    + destruct (Ascii.eqb c "1"); [|discriminate]. apply IH in H; lia.
Qed.

Lemma int_base2_Ok (s : str) (z : Z) : int_base2 s = Ok z -> int2_digits 0 s = Ok z.
Proof. destruct s; [discriminate | trivial]. Qed.

(** A proper prefix of a numeral that is followed by a 1 bit has a smaller
    value than the numeral. *)
Lemma prefix_value_differs (l : str) (k : nat) (c : N) :
  int_base2 l = Ok (Z.of_N c) ->
  nth_error l k = Some "1"%char ->
  char_of_bits (firstn k l) <> Ok c.
Proof.
  intros Hl Hk Hc. unfold char_of_bits in Hc.
  apply bind_Ok_inv in Hc as (z & Hz & Hchr).
  apply int_base2_Ok in Hl, Hz.
  unfold chr in Hchr.
  destruct ((0 <=? z) && (z <=? 1114111)) eqn:Hr; [|discriminate].
  injection Hchr as <-. apply andb_true_iff in Hr as [Hr _]. apply Z.leb_le in Hr.
  rewrite <- (firstn_skipn k l), (skipn_nth_error_Some _ _ _ Hk) in Hl.
  rewrite int2_digits_app, Hz in Hl. cbn -[Z.mul Z.add] in Hl.
  apply int2_digits_lower in Hl; [|lia].
  rewrite Z2N.id in Hl by exact Hr. lia.
Qed.

Lemma groups_of_8_concat_app (chunks : list str) (rest : str) :
  Forall (fun l => length l = 8%nat) chunks ->
  groups_of_8 (concat chunks ++ rest) = chunks ++ groups_of_8 rest.
Proof.
  induction 1 as [|l chunks Hl _ IH]; simpl; [reflexivity|].
  rewrite <- app_assoc, groups_of_8_cons by assumption. rewrite IH. reflexivity.
Qed.

Lemma groups_of_8_single (part : str) :
  (0 < length part <= 8)%nat -> groups_of_8 part = [part].
Proof.
  intros Hlen. unfold groups_of_8, range0.
  assert (Hq : ((length part + 8 - 1) / 8 = 1)%nat).
  { symmetry. apply (Nat.div_unique _ 8 1 (length part - 1)); lia. }
  rewrite Hq. cbn [seq map]. unfold slice.
  change (0 * 8 + 8 - 0 * 8)%nat with 8%nat. change (0 * 8)%nat with 0%nat.
  cbn [skipn]. rewrite firstn_all2 by lia. reflexivity.
Qed.

Lemma groups_of_8_length (bits : str) :
  length (groups_of_8 bits) = ((length bits + 8 - 1) / 8)%nat.
Proof. unfold groups_of_8, range0. rewrite !length_map, length_seq. reflexivity. Qed.

Lemma occurs_at_head (s : str) (p : nat) :
  occurs_at s delimiter p -> nth_error s p = Some "1"%char.
Proof.
  unfold occurs_at. revert p. induction s as [|d s IH]; intros p H.
  - rewrite skipn_nil, firstn_nil in H. discriminate.
  - destruct p as [|p]; [|apply IH; exact H].
    cbn in H. cbn. injection H as -> _. reflexivity.
Qed.

Lemma format_08b_lengths (m : pystr) :
  Forall (fun c => (c <= 255)%N) m ->
  Forall (fun l => length l = 8%nat) (map (fun c => format_08b (ord c)) m).
Proof.
  intros Hm. apply Forall_forall. intros l Hl. apply in_map_iff in Hl as (c & <- & Hc).
  apply format_08b_length_byte. rewrite Forall_forall in Hm. auto.
Qed.

(** Decoding a cut through the last character of a payload, at a position
    that holds a 1 bit, does not give back the message. *)
Lemma cut_message_differs (m0 : pystr) (c : N) (k : nat) :
  Forall (fun c => (c <= 255)%N) m0 -> (0 < k < 8)%nat ->
  nth_error (format_08b (ord c)) k = Some "1"%char ->
  mapM char_of_bits
    (groups_of_8 (concat (map (fun c => format_08b (ord c)) m0) ++
                  firstn k (format_08b (ord c)))) <> Ok (m0 ++ [c]).
Proof.
  intros Hm0 Hk Hbit H.
  assert (Hlen : length (firstn k (format_08b (ord c))) = k).
  { rewrite length_firstn. apply Nat.min_l.
    assert (k < length (format_08b (ord c)))%nat by (apply nth_error_Some; congruence).
    lia. }
  rewrite groups_of_8_concat_app in H by (apply format_08b_lengths; exact Hm0).
  rewrite groups_of_8_single in H by lia.
  rewrite mapM_app, mapM_map_Ok in H.
  - cbn [bind mapM] in H.
    destruct (char_of_bits (firstn k (format_08b (ord c)))) as [v|e] eqn:Ev;
      [|discriminate].
    cbn [bind] in H. injection H as H. apply app_inv_head in H. injection H as ->.
    revert Ev. apply prefix_value_differs; [apply int_base2_format_08b | exact Hbit].
  - eapply Forall_impl; [|exact Hm0]. intros a Ha. apply char_of_bits_format_08b. exact Ha.
Qed.

Lemma hide_message_truncated_stream (img img' : image) (m : pystr) :
  hide_message img m = Ok img' ->
  (bit_count img <= length (binary_message_of m))%nat ->
  lsb_stream img' = firstn (bit_count img) (binary_message_of m).
Proof.
  intros H Hcap.
  destruct (hide_message_channels _ _ _ H) as (_ & _ & _ & _ & Hch).
  unfold lsb_stream at 1. rewrite Hch, embed_spec_lsb by apply binary_message_bits.
  rewrite skipn_all2, app_nil_r; [reflexivity|].
  rewrite length_map. exact Hcap.
Qed.

(** X12.  The capacity condition is necessary: for a message over code
    points at most 255 other than the text "No message found", if the grid
    has fewer than [8*len(m)+16] channel slots then decoding the grid returned
    by [hide_message] never returns the message. *)
Theorem truncated_message_not_recovered (img img' : image) (m : pystr) :
  Forall (fun c => (c <= 255)%N) m ->
  m <> No_message_found ->
  (bit_count img < 8 * length m + 16)%nat ->
  hide_message img m = Ok img' ->
  extract_message img' <> Ok m.
Proof.
  intros Hm Hne Hcap Hhide Hex.
  pose proof (binary_message_length_bytes m Hm) as Hblen.
  pose proof (message_bits_length m Hm) as Hlen.
  pose proof (hide_message_truncated_stream _ _ _ Hhide ltac:(lia)) as Hst.
  destruct (extract_message_cases _ _ Hex) as (_ & [[E _] | (p & Hp & Hd)]);
    [exact (Hne E)|].
  pose proof (occurs_at_head _ _ (proj1 Hp)) as Hbit.
  pose proof (proj1 Hp) as Hb. apply occurs_at_bound in Hb as [Hb | Hb]; [|discriminate].
  change (length delimiter) with 16%nat in Hb.
  rewrite Hst, length_firstn in Hb.
  assert (Hpn : (p < 8 * length m)%nat) by lia.
  (* the decoded prefix lies within the message bits *)
  rewrite Hst, firstn_firstn in Hd. rewrite Nat.min_l in Hd by lia.
  unfold binary_message_of in Hd. rewrite firstn_app, Hlen in Hd.
  replace (p - 8 * length m)%nat with 0%nat in Hd by lia.
  rewrite firstn_O, app_nil_r in Hd.
  (* as many groups as characters *)
  pose proof (mapM_length _ _ _ Hd) as Hcount.
  rewrite groups_of_8_length, length_firstn, Hlen in Hcount.
  rewrite Nat.min_l in Hcount by lia.
  pose proof (Nat.div_mod_eq (p + 8 - 1) 8) as Ediv.
  pose proof (Nat.mod_upper_bound (p + 8 - 1) 8 ltac:(lia)) as Bdiv.
  rewrite <- Hcount in Ediv.
  destruct (exists_last (l := m)) as (m0 & c & ->).
  { intros ->. simpl in Hpn. lia. }
  rewrite length_app in *. cbn [length] in *.
  apply Forall_app in Hm as [Hm0 Hc].
  pose proof (message_bits_length m0 Hm0) as Hlen0.
  set (k := (p - 8 * length m0)%nat).
  assert (Hk : (0 < k < 8)%nat) by (unfold k; lia).
  unfold binary_message_of in Hst.
  rewrite map_app, concat_app in Hd, Hst. cbn [map concat] in Hd, Hst.
  rewrite app_nil_r in Hd, Hst.
  rewrite firstn_app, Hlen0 in Hd. fold k in Hd.
  rewrite firstn_all2 in Hd by lia.
  apply (cut_message_differs m0 c k Hm0 Hk); [|exact Hd].
  rewrite Hst, nth_error_firstn in Hbit.
  destruct (Nat.ltb_spec p (bit_count img)) as [_ | Hge]; [|lia].
  rewrite <- app_assoc, nth_error_app2 in Hbit by lia.
  rewrite Hlen0 in Hbit. fold k in Hbit.
  rewrite nth_error_app1 in Hbit; [exact Hbit|].
  inversion Hc as [|? ? Hc255 _]; subst.
  rewrite format_08b_length_byte by exact Hc255. lia.
Qed.

Lemma truncated_message_not_recovered_witness :
  extract_message (gray [10; 21; 30; 40]) <> Ok [65%N].
Proof.
  apply (truncated_message_not_recovered grid_example_1 (gray [10; 21; 30; 40]) [65%N]).
  - repeat constructor; lia.
  - discriminate.
  - vm_compute. lia.
  - reflexivity.
Defined.

(** * The payload and the decoding against the specification's terms *)

(** ** [format(ord(c), '08b')] writes the bits of the character *)

Lemma bits_msb_snoc (w : nat) (n : N) :
  bits_msb (S w) n = bits_msb w (N.div2 n) ++ [bit_char (N.testbit n 0)].
Proof.
  induction w as [|w IH]; [reflexivity|].
  change (bits_msb (S (S w)) n)
    with (bit_char (N.testbit n (N.of_nat (S w))) :: bits_msb (S w) n).
  rewrite IH. cbn [bits_msb app]. f_equal. f_equal.
  rewrite Nat2N.inj_succ. apply N.testbit_succ_r_div2. lia.
Qed.

Lemma testbit_above_size (p : positive) :
  forall j, (Pos.size_nat p <= j)%nat -> N.testbit (Npos p) (N.of_nat j) = false.
Proof.
  induction p as [q IH | q IH |]; intros j Hj; cbn [Pos.size_nat] in Hj;
    (destruct j as [|j]; [lia|]);
    rewrite Nat2N.inj_succ, N.testbit_succ_r_div2 by lia; cbn [N.div2].
  - apply IH. lia.
  - apply IH. lia.
  - apply N.bits_0.
Qed.

Lemma bits_msb_size (p : positive) : bits_msb (Pos.size_nat p) (Npos p) = bin_pos p [].
Proof.
  induction p as [q IH | q IH |]; cbn [Pos.size_nat].
  - rewrite bits_msb_snoc. cbn [N.div2]. rewrite IH. cbn [bin_pos].
    rewrite (bin_pos_acc q ["1"%char]). reflexivity.
  - rewrite bits_msb_snoc. cbn [N.div2]. rewrite IH. cbn [bin_pos].
    rewrite (bin_pos_acc q ["0"%char]). reflexivity.
  - reflexivity.
Qed.

Lemma bits_msb_pad (k : nat) (p : positive) :
  bits_msb (k + Pos.size_nat p) (Npos p) =
  repeat "0"%char k ++ bits_msb (Pos.size_nat p) (Npos p).
Proof.
  induction k as [|k IH]; [reflexivity|].
  cbn [Nat.add bits_msb repeat app]. rewrite IH.
  rewrite testbit_above_size by lia. reflexivity.
Qed.

Lemma format_08b_char_bits (c : N) : format_08b (ord c) = char_bits c.
Proof.
  unfold ord, char_bits. destruct c as [|p]; [reflexivity|].
  cbn [Z.of_N format_08b N.size_nat]. unfold zfill.
  rewrite bin_pos_length.
  replace (Nat.max 8 (Pos.size_nat p)) with ((8 - Pos.size_nat p) + Pos.size_nat p)%nat by lia.
  rewrite bits_msb_pad, bits_msb_size. reflexivity.
Qed.

(** Line 21 builds the bitstream payload. *)
Lemma binary_message_payload (m : pystr) : binary_message_of m = bitstream_payload m.
Proof.
  unfold binary_message_of, bitstream_payload. f_equal.
  rewrite flat_map_concat_map. f_equal.
  apply map_ext. intros c. apply format_08b_char_bits.
Qed.

Lemma bitstream_payload_length (m : pystr) :
  Forall (fun c => (c <= 255)%N) m ->
  length (bitstream_payload m) = (8 * length m + 16)%nat.
Proof.
  intros Hm. rewrite <- binary_message_payload. apply binary_message_length_bytes. exact Hm.
Qed.

(** C2.  The grid returned by [hide_message] has the mode, size and pixel
    shapes of the input.  With the payload being the bits of each character,
    most significant first, followed by the 16-bit terminator
    ([8*len(m)+16] bits when all code points are at most 255): a channel at a
    scan position at or beyond the payload length is unchanged; a channel at
    a position before it has its LSB equal to the payload bit at that position
    and all its higher bits unchanged.  A grid is returned for every grid of
    single values and 3-tuples. *)
Theorem hide_message_frame (img : image) (m : pystr) :
  (supported img -> exists img', hide_message img m = Ok img') /\
  (Forall (fun c => (c <= 255)%N) m ->
   length (bitstream_payload m) = (8 * length m + 16)%nat) /\
  forall img', hide_message img m = Ok img' ->
    mode img' = mode img /\ size img' = size img /\
    map shape (getdata img') = map shape (getdata img) /\
    forall i x, nth_error (channels img) i = Some x ->
      exists x', nth_error (channels img') i = Some x' /\
        ((length (bitstream_payload m) <= i)%nat -> x' = x) /\
        ((i < length (bitstream_payload m))%nat ->
           exists c, nth_error (bitstream_payload m) i = Some c /\
                     Z.land x' 1 = bit_val c /\
                     Z.shiftr x' 1 = Z.shiftr x 1).
Proof.
  split; [|split].
  - intros Hs. destruct (hide_message_stream img m Hs) as (img' & E & _). eauto.
  - apply bitstream_payload_length.
  - intros img' H.
    destruct (hide_message_channels _ _ _ H) as (_ & Hmode & Hsize & Hsh & Hch).
    repeat split; try assumption.
    intros i x Hx. rewrite Hch, (embed_spec_nth _ _ _ _ Hx).
    rewrite <- binary_message_payload.
    eexists. split; [reflexivity|]. split.
    + intros Hi. apply nth_error_None in Hi. rewrite Hi. reflexivity.
    + intros Hi. destruct (nth_error (binary_message_of m) i) as [c|] eqn:E.
      * assert (Hc : is_bit c).
        { pose proof (binary_message_bits m) as Hb. rewrite Forall_forall in Hb.
          apply Hb. eapply nth_error_In; eauto. }
        exists c. split; [reflexivity|].
        split; [apply put_lsb_land | apply put_lsb_upper]; exact Hc.
      * apply nth_error_None in E. lia.
Qed.

Lemma hide_message_frame_witness :
  exists img',
    hide_message grid_32 [65%N] = Ok img' /\
    mode img' = mode grid_32 /\ size img' = size grid_32 /\
    map shape (getdata img') = map shape (getdata grid_32) /\
    nth_error (channels img') 30 = Some 100 /\
    exists x', nth_error (channels img') 1 = Some x' /\
               nth_error (bitstream_payload [65%N]) 1 = Some "1"%char /\
               Z.land x' 1 = 1 /\ Z.shiftr x' 1 = Z.shiftr 100 1.
Proof.
  destruct (hide_message_frame grid_32 [65%N]) as (Hret & _ & Hframe).
  destruct (Hret grid_32_supported) as (img' & E).
  exists img'. split; [exact E|].
  destruct (Hframe img' E) as (Hmode & Hsize & Hsh & Hch).
  repeat (split; [assumption|]). split.
  - destruct (Hch 30%nat 100 eq_refl) as (x' & Hx' & Hsame & _).
    rewrite Hx'. f_equal. apply Hsame. vm_compute. lia.
  - destruct (Hch 1%nat 100 eq_refl) as (x' & Hx' & _ & Hbit).
    destruct (Hbit ltac:(vm_compute; lia)) as (c & Hc & Hl & Hu).
    vm_compute in Hc. injection Hc as <-.
    exists x'. repeat split; assumption.
Defined.

(** ** The decoding loop reads groups of 8 bits as unsigned numbers *)

Lemma bits_value_bound (s : str) : (bits_value s < 2 ^ N.of_nat (length s))%N.
Proof.
  induction s as [|c s IH]; [cbn; lia|].
  cbn [bits_value length]. rewrite Nat2N.inj_succ, N.pow_succ_r'.
  destruct (Ascii.eqb c "1"); lia.
Qed.

Lemma int2_digits_value (s : str) :
  Forall is_bit s ->
  forall acc, int2_digits acc s =
              Ok (acc * 2 ^ Z.of_nat (length s) + Z.of_N (bits_value s)).
Proof.
  induction 1 as [|c s Hc _ IH]; intros acc.
  - cbn. f_equal. lia.
  - cbn [length bits_value]. rewrite Nat2Z.inj_succ, Z.pow_succ_r by lia.
    rewrite N2Z.inj_add.
    destruct Hc as [-> | ->]; cbn -[Z.mul Z.add Z.pow Z.of_nat N.pow N.of_nat bits_value];
      rewrite IH; f_equal.
    + change (Z.of_N 0) with 0. lia.
    + rewrite N2Z.inj_pow, nat_N_Z. change (Z.of_N 2) with 2. lia.
Qed.

Lemma char_of_bits_value (g : str) :
  Forall is_bit g -> g <> [] -> (length g <= 8)%nat ->
  char_of_bits g = Ok (bits_value g).
Proof.
  intros Hg Hne Hlen. unfold char_of_bits, int_base2.
  destruct g as [|c g]; [congruence|].
  rewrite (int2_digits_value _ Hg). cbn [bind]. unfold chr.
  pose proof (bits_value_bound (c :: g)) as B.
  assert (H256 : (2 ^ N.of_nat (length (c :: g)) <= 2 ^ 8)%N)
    by (apply N.pow_le_mono_r; lia).
  change (2 ^ 8)%N with 256%N in H256.
  replace (0 * 2 ^ Z.of_nat (length (c :: g)) + Z.of_N (bits_value (c :: g)))
    with (Z.of_N (bits_value (c :: g))) by lia.
  replace ((0 <=? Z.of_N (bits_value (c :: g))) &&
           (Z.of_N (bits_value (c :: g)) <=? 1114111)) with true
    by (symmetry; apply andb_true_iff; split; apply Z.leb_le; lia).
  rewrite N2Z.id. reflexivity.
Qed.

Lemma groups_fuel_groups_of_8 (fuel : nat) :
  forall s, (length s <= fuel)%nat -> groups_fuel fuel s = groups_of_8 s.
Proof.
  induction fuel as [|f IH]; intros s Hlen.
  - destruct s; [reflexivity | simpl in Hlen; lia].
  - destruct s as [|c s]; [reflexivity|].
    cbn [groups_fuel]. rewrite IH by (rewrite length_skipn; lia).
    destruct (le_lt_dec 8 (length (c :: s))) as [H8 | H8].
    + rewrite <- (firstn_skipn 8 (c :: s)) at 3.
      rewrite groups_of_8_cons by (rewrite length_firstn; lia). reflexivity.
    + rewrite skipn_all2, firstn_all2 by lia.
      rewrite (groups_of_8_single (c :: s)) by (cbn [length] in *; lia). reflexivity.
Qed.

Lemma mapM_map_value {A B : Type} (f : A -> result B) (g : A -> B) (l : list A) :
  Forall (fun a => f a = Ok (g a)) l -> mapM f l = Ok (map g l).
Proof.
  induction 1 as [|a l Ha _ IH]; simpl; [reflexivity|].
  rewrite Ha. simpl. rewrite IH. reflexivity.
Qed.

Lemma decode_groups_value (s : str) :
  Forall is_bit s -> mapM char_of_bits (groups_of_8 s) = Ok (message_of_bits s).
Proof.
  intros Hs. unfold message_of_bits, bit_groups.
  rewrite groups_fuel_groups_of_8 by lia.
  apply mapM_map_value. eapply Forall_impl; [|apply groups_of_8_wf; exact Hs].
  intros g (Hg & Hne & Hlen). apply char_of_bits_value; assumption.
Qed.

(** C3 (as stated) fails on a well-formed RGBA grid: the 16 channel LSBs are
    the terminator, so its first occurrence is at offset 0 and the message
    before it is empty, yet decoding raises at the first pixel. *)
Lemma first_terminator_counterexample :
  well_formed grid_rgba_terminator /\
  lsb_stream grid_rgba_terminator = terminator_marker /\
  first_occurrence (lsb_stream grid_rgba_terminator) terminator_marker 0 /\
  extract_message grid_rgba_terminator = Raise (UnpackError 4).
Proof.
  split; [|split; [reflexivity|split; [|reflexivity]]].
  - unfold well_formed, grid_rgba_terminator. cbn [getdata size fst snd].
    split; [reflexivity|]. split; [|split].
    + intros p q Hp Hq. cbn in Hp, Hq.
      intuition (subst; reflexivity).
    + intros cs H. cbn in H. intuition (try discriminate);
        match goal with E : PTuple _ = PTuple _ |- _ => injection E as <- end;
        simpl; lia.
    + unfold channels. cbn. repeat constructor; lia.
  - split; [reflexivity|]. intros q Hq. lia.
Qed.

(** C3 (as amended).  For every grid of single values and r,g,b tuples: with
    the bitstream being the LSB of each channel in scan order and [p] the
    offset of the first occurrence of the 16-bit terminator in it,
    [extract_message] returns the message read from exactly the [p] bits
    before that occurrence: each consecutive group of 8 bits, and a shorter
    last group when bits are left over, as an unsigned number, most
    significant bit first. *)
Theorem extract_message_first_terminator (img : image) (p : nat) :
  supported img ->
  first_occurrence (lsb_stream img) terminator_marker p ->
  extract_message img = Ok (message_of_bits (firstn p (lsb_stream img))).
Proof.
  intros Hs Hp. change terminator_marker with delimiter in Hp.
  rewrite (extract_message_found img p Hs Hp).
  apply decode_groups_value, firstn_bits, lsb_stream_bits.
Qed.

Lemma extract_message_first_terminator_witness :
  extract_message grid_letter_A = Ok [65%N].
Proof.
  apply (extract_message_first_terminator grid_letter_A 8).
  - apply gray_supported.
  - split; [reflexivity|]. intros q Hq.
    do 8 (destruct q as [|q]; [intros E; vm_compute in E; congruence|]). lia.
Defined.
